(** * Sink coverage analyser: a shallow embedding of
      [fuzz_introspector/analyses/sinks_analyser.py]

    The Python module is translated function by function.  Python
    exceptions are explicit ([result]), dictionaries that are only
    looked up are [gmap]s, dictionaries that are iterated are lists of
    items in insertion order, and the collaborators that live in other
    modules (HTML helpers, demangler, call-tree flattening, coverage
    query) are section variables. *)

From Stdlib Require Import ZArith String Ascii List Bool Lia DecimalString.
From Stdlib Require DecimalPos.
From stdpp Require Import gmap strings list fin_maps.

Set Warnings "-clear-no-such-hyp".

Local Open Scope string_scope.
Local Open Scope list_scope.
Local Open Scope Z_scope.

(** ** Python values and exceptions *)

Inductive exn : Type :=
| KeyError (key : string)
| IndexError
| ValueError.

Inductive result (A : Type) : Type :=
| Ok (a : A)
| Raise (e : exn).

Arguments Ok {A} a.
Arguments Raise {A} e.

#[global] Instance result_ret : MRet result := fun A a => Ok a.

#[global] Instance result_bind : MBind result := fun A B k m =>
  match m with
  | Ok a => k a
  | Raise e => Raise e
  end.

(** [for x in l: s = body(s, x)], where the body may raise. *)
Fixpoint for_each {A S : Type} (l : list A) (body : S -> A -> result S) (s : S)
  : result S :=
  match l with
  | [] => Ok s
  | x :: l' => s' ← body s x; for_each l' body s'
  end.

Definition returns {A : Type} (m : result A) : Prop := exists a, m = Ok a.

(** A [str] attribute that may hold [None]. *)
Definition truthy (v : option string) : bool :=
  match v with
  | Some (String _ _) => true
  | _ => false
  end.

(** ["%s" % v] *)
Definition fmt_s (v : option string) : string :=
  match v with
  | Some s => s
  | None => "None"
  end.

(** ["%s" % n] and [f"{n}"] for an [int]. *)
Definition fmt_int (n : Z) : string := NilZero.string_of_int (Z.to_int n).

(** [str(b)] for a [bool]. *)
Definition fmt_bool (b : bool) : string := if b then "True" else "False".

(** ** String primitives *)

(** [c in s] for a one-character [c]. *)
Fixpoint contains (c : ascii) (s : string) : bool :=
  match s with
  | EmptyString => false
  | String a s' => if Ascii.eqb a c then true else contains c s'
  end.

(** [s.split(sep)] for a one-character separator. *)
Fixpoint split (sep : ascii) (s : string) : list string :=
  match s with
  | EmptyString => [EmptyString]
  | String a s' =>
      if Ascii.eqb a sep then EmptyString :: split sep s'
      else match split sep s' with
           | h :: t => String a h :: t
           | [] => [String a EmptyString]
           end
  end.

(** [s.rsplit(sep, 1)] for a one-character separator: [Some (a, b)] is the
    two-element list [[a, b]], [None] the one-element list [[s]]. *)
Fixpoint rsplit1 (sep : ascii) (s : string) : option (string * string) :=
  match s with
  | EmptyString => None
  | String a s' =>
      match rsplit1 sep s' with
      | Some (x, y) => Some (String a x, y)
      | None => if Ascii.eqb a sep then Some (EmptyString, s') else None
      end
  end.

(** [l[i]] *)
Definition index {A : Type} (l : list A) (i : nat) : result A :=
  match l !! i with
  | Some x => Ok x
  | None => Raise IndexError
  end.

(** [l[-1]] *)
Definition index_last {A : Type} (l : list A) : result A :=
  match List.rev l with
  | x :: _ => Ok x
  | [] => Raise IndexError
  end.

(** [list(set(l))]: the distinct elements of [l]; Python leaves their
    order to the hash of the elements, here one order is fixed. *)
Definition list_set (l : list string) : list string := remove_dups l.

(** The characters of a string, as [list.extend] sees a [str]. *)
Definition chars (s : string) : list string :=
  (fun c => String c EmptyString) <$> list_ascii_of_string s.

(** *** [int(s)] *)

Definition is_space (c : ascii) : bool :=
  let n := nat_of_ascii c in
  ((9 <=? n) && (n <=? 13) || (28 <=? n) && (n <=? 32))%nat.

Definition digit (c : ascii) : option Z :=
  let n := nat_of_ascii c in
  if ((48 <=? n) && (n <=? 57))%nat then Some (Z.of_nat n - 48) else None.

Fixpoint lstrip (s : string) : string :=
  match s with
  | String a s' => if is_space a then lstrip s' else s
  | EmptyString => EmptyString
  end.

Fixpoint rstrip (s : string) : string :=
  match s with
  | EmptyString => EmptyString
  | String a s' =>
      match rstrip s' with
      | EmptyString => if is_space a then EmptyString else String a EmptyString
      | r => String a r
      end
  end.

Inductive digits_state : Type := AtStart | AfterDigit | AfterUnderscore.

(** Decimal digits, single underscores allowed between two digits. *)
Fixpoint int_digits (st : digits_state) (acc : Z) (s : string) : option Z :=
  match s with
  | EmptyString =>
      match st with
      | AfterDigit => Some acc
      | _ => None
      end
  | String a s' =>
      match digit a with
      | Some d => int_digits AfterDigit (10 * acc + d) s'
      | None =>
          if Ascii.eqb a "_" then
            match st with
            | AfterDigit => int_digits AfterUnderscore acc s'
            | _ => None
            end
          else None
      end
  end.

(** [int(s)] in base 10 on ASCII text: surrounding white space is
    dropped, one sign is allowed; anything else is a [ValueError]. *)
Definition int (s : string) : result Z :=
  let body :=
    match rstrip (lstrip s) with
    | String "-" r => Z.opp <$> int_digits AtStart 0 r
    | String "+" r => int_digits AtStart 0 r
    | r => int_digits AtStart 0 r
    end in
  match body with
  | Some n => Ok n
  | None => Raise ValueError
  end.

(** ** Data model

    The profile classes are declared in other modules of the package;
    the records below list the attributes this analysis reads. *)

(** Modelled from the spec: [cfg_load.CalltreeCallsite] is not part of
    this module.  One static call edge: source function name, source
    file, line number, destination function name, destination file and
    the parent call-tree node (absent at the root).  The string
    attributes are tested for truthiness by the code, so each of them
    may be [None]. *)
#[warnings="-register-all"]
Inductive CalltreeCallsite : Type := mkCallsite {
  src_function_name : option string;
  src_function_source_file : option string;
  src_linenumber : Z;
  dst_function_name : option string;
  dst_function_source_file : option string;
  parent_calltree_callsite : option CalltreeCallsite
}.

(** Modelled from the spec: [function_profile.FunctionProfile] is not
    part of this module.  [callsite] is the function's own outgoing-call
    mapping, callee name to call-site descriptor string, as the items
    of the dictionary in insertion order. *)
Record FunctionProfile : Type := mkFunction {
  function_name : string;
  function_source_file : string;
  incoming_references : list string;
  reached_by_fuzzers : list string;
  callsite : list (string * string)
}.

(** [d[k]] on a dictionary that is only looked up. *)
Definition getitem {V : Type} (d : gmap string V) (k : string) : result V :=
  match d !! k with
  | Some v => Ok v
  | None => Raise (KeyError k)
  end.

(** [d[k]] on a dictionary given by its items. *)
Fixpoint items_get {V : Type} (items : list (string * V)) (k : string) : result V :=
  match items with
  | [] => Raise (KeyError k)
  | (k', v) :: rest => if String.eqb k' k then Ok v else items_get rest k
  end.

(** ** The sink catalogue *)

Definition SINK_FUNCTION : list (string * list (string * string)) :=
  [ ("c-cpp",
     [ ("", "system"); ("", "execl"); ("", "execve"); ("", "wordexp");
       ("", "popen"); ("", "fdopen") ]);
    ("python",
     [ ("", "exec"); ("", "eval");
       ("subprocess", "call"); ("subprocess", "run");
       ("subprocess", "Popen"); ("subprocess", "check_output");
       ("os", "system"); ("os", "popen"); ("os", "spawnlpe");
       ("os", "spawnve"); ("os", "execl"); ("os", "execve");
       ("asyncio", "create_subprocess_shell");
       ("asyncio", "create_subprocess_exec");
       ("asyncio", "run"); ("asyncio", "sleep");
       ("logging.config", "listen");
       ("code.InteractiveInterpreter", "runsource");
       ("code.InteractiveInterpreter", "runcode");
       ("code.InteractiveInterpreter", "write");
       ("code.InteractiveConsole", "push");
       ("code.InteractiveConsole", "interact");
       ("code.InteractiveConsole", "raw_input");
       ("code", "interact"); ("code", "compile_command") ]);
    ("jvm",
     [ ("java.lang.Runtime", "exec");
       ("javax.xml.xpath.XPath", "compile");
       ("javax.xml.xpath.XPath", "evaluate");
       ("java.lang.Thread", "sleep"); ("java.lang.Thread", "run");
       ("java.lang.Runnable", "run");
       ("java.util.concurrent.Executor", "execute");
       ("java.util.concurrent.Callable", "call");
       ("java.lang.System", "console"); ("java.lang.System", "load");
       ("java.lang.System", "loadLibrary");
       ("java.lang.System", "apLibraryName");
       ("java.lang.System", "runFinalization");
       ("java.lang.System", "setErr"); ("java.lang.System", "setIn");
       ("java.lang.System", "setOut");
       ("java.lang.System", "setProperties");
       ("java.lang.System", "setProperty");
       ("java.lang.System", "setSecurityManager");
       ("java.lang.ProcessBuilder", "directory");
       ("java.lang.ProcessBuilder", "inheritIO");
       ("java.lang.ProcessBuilder", "command");
       ("java.lang.ProcessBuilder", "edirectError");
       ("java.lang.ProcessBuilder", "redirectErrorStream");
       ("java.lang.ProcessBuilder", "redirectInput");
       ("java.lang.ProcessBuilder", "redirectOutput");
       ("java.lang.ProcessBuilder", "start") ]) ].

(** ** Call-site descriptors *)

Definition _get_source_file (callsite : CalltreeCallsite) : option string :=
  let src_file := src_function_source_file callsite in
  if negb (truthy src_file) then
    match parent_calltree_callsite callsite with
    | Some parent =>
        let src_file := dst_function_source_file parent in
        if truthy src_file then src_file else Some ""
    | None => src_file
    end
  else src_file.

Definition _get_parent_func_name (callsite : CalltreeCallsite) : option string :=
  let func_file := src_function_source_file callsite in
  if negb (truthy func_file) then
    match parent_calltree_callsite callsite with
    | Some parent =>
        let func_file := dst_function_name parent in
        if truthy func_file then func_file else Some ""
    | None => func_file
    end
  else func_file.

(** ["%s#%s:%s" % (file, caller, line)] *)
Definition format_descriptor (file caller : option string) (line : Z) : string :=
  fmt_s file +:+ "#" +:+ fmt_s caller +:+ ":" +:+ fmt_int line.

Definition descriptor (callsite : CalltreeCallsite) : string :=
  format_descriptor (_get_source_file callsite)
                    (_get_parent_func_name callsite)
                    (src_linenumber callsite).

(** ** The callsite indexer *)

(** [for function in functions: callsite_dict[function.function_name] = []] *)
Definition init_callsite_dict (functions : list FunctionProfile)
  : gmap string (list string) :=
  fold_left (fun d function => <[function_name function := []]> d)
            functions (∅ : gmap string (list string)).

(** The body of the loop over call sites. *)
Definition add_callsite (callsite_dict : gmap string (list string))
    (callsite : CalltreeCallsite) : gmap string (list string) :=
  match dst_function_name callsite with
  | Some func_name =>
      (* if func_name in callsite_dict.keys() *)
      match callsite_dict !! func_name with
      | Some l => <[func_name := l ++ [descriptor callsite]]> callsite_dict
      | None => callsite_dict
      end
  | None => callsite_dict
  end.

Definition map_function_callsite
    (functions : list FunctionProfile) (callsites : list CalltreeCallsite)
  : gmap string (list string) :=
  (* Initialize callsite_dict with target function names *)
  let callsite_dict := init_callsite_dict functions in
  (* Map callsite for all target functions *)
  let callsite_dict := fold_left add_callsite callsites callsite_dict in
  (* Sort and make unique for callsites of each function *)
  list_set <$> callsite_dict.

(** ** The reachability resolver *)

Definition retrieve_reachable_functions
    (functions : list FunctionProfile)
    (function_callsites : gmap string (list string))
  : result (list string) :=
  function_list ←
    for_each functions
      (fun function_list function =>
         for_each (callsite function)
           (fun function_list '(func_name, callsite_str) =>
              known ← getitem function_callsites func_name;
              if bool_decide (callsite_str ∈ known)
              then Ok (function_list ++ chars callsite_str)
              else Ok function_list)
           function_list)
      [];
  Ok (list_set function_list).

(** ** The sink filter *)

(** The [jvm] branch: the (package, func_name) key of a raw name. *)
Definition jvm_key (name : string) : result (string * string) :=
  func_name ← index (split "(" name) 0;
  if contains "." func_name then
    match rsplit1 "." func_name with
    | Some (package, func_name) => Ok (package, func_name)
    | None => Raise ValueError
    end
  else Ok ("default", func_name).

(** ** The coverage correlator *)

(** [int(called_location.split(":")[1])] *)
Definition lineno_of (called_location : string) : result Z :=
  field ← index (split ":" called_location) 1; int field.

(** The loop over [fd.incoming_references] for one called location.
    The second component of the result lists the
    [coverage.is_func_lineno_hit] queries in the order they are made. *)
Fixpoint hit_loop (is_func_lineno_hit : string -> Z -> bool)
    (called_location : string) (refs : list string)
    (queries : list (string * Z)) : result (bool * list (string * Z)) :=
  match refs with
  | [] => Ok (false, queries)
  | parent_func :: rest =>
      (* try: lineno = int(called_location.split(":")[1]) *)
      match lineno_of called_location with
      | Raise ValueError =>
          (* except ValueError: continue *)
          hit_loop is_func_lineno_hit called_location rest queries
      | Raise e => Raise e
      | Ok lineno =>
          let queries := queries ++ [(parent_func, lineno)] in
          if is_func_lineno_hit parent_func lineno
          then Ok (true, queries) (* fuzzer_hit = True; break *)
          else hit_loop is_func_lineno_hit called_location rest queries
      end
  end.

(** [fd.reached_by_fuzzers if fuzzer_hit else [""]] *)
Definition list_of_fuzzer_covered (fd : FunctionProfile) (fuzzer_hit : bool)
  : list string :=
  if fuzzer_hit then reached_by_fuzzers fd else [""].

Definition dq : string := String (ascii_of_nat 34) EmptyString.

Definition section_text : string :=
  "<p>"
  +:+ "This section shows a chosen list of functions / methods "
  +:+ "calls and their relative coverage information. By static "
  +:+ "analysis of the target project code, all of these function "
  +:+ "call and their caller information, including the source file "
  +:+ "or class and line number that initiate the call are captured. "
  +:+ "The caller source code file or class and the line number are "
  +:+ "shown in column 2 while column 1 is the function name of that "
  +:+ "selected functions or methods call. Each occurrent of the target "
  +:+ "function call will occuply a separate row. Column 3 of each row "
  +:+ "indicate if the target function calls is statically unreachable."
  +:+ "Column 4 lists all fuzzers (or no fuzzers at all) that have "
  +:+ "covered that particular system call in  dynamic fuzzing. Those "
  +:+ "functions with low to  no reachability and dynamic hit count indicate "
  +:+ "missed fuzzing logic to fuzz and track for possible code injection sinks."
  +:+ "</p>".

Definition table_columns : list (string * string) :=
  [ ("Target sink", "");
    ("Callsite location",
     "Source file, line number and parent function of this function call. "
     +:+ "Based on static analysis.");
    ("Reached by fuzzer",
     "Is this code reachable by any functions? "
     +:+ "Based on static analysis.");
    ("Covered by Fuzzers",
     "The specific list of fuzzers that cover this function call. "
     +:+ "Based on dynamic analysis.") ].

Section Analysis.

(** *** Collaborators from other modules *)

(** [fuzzer_profile.FuzzerProfile.function_call_depths] and
    [cfg_load.extract_all_callsites], which flattens it. *)
Variable Calltree : Type.
Variable extract_all_callsites : Calltree -> list CalltreeCallsite.

(** [utils.demangle_cpp_func] *)
Variable demangle_cpp_func : string -> string.

(** [html_helpers]; [html_add_header_with_link] also appends to the
    table of contents it is given. *)
Variable html_add_header_with_link :
  string -> Z -> list (string * string * Z) -> string * list (string * string * Z).
Variable html_create_table_head : string -> list (string * string) -> string.
Variable html_table_add_row : list string -> string.
Variable HTMLConclusion : Type.

(** [str(l)] of a list of strings. *)
Variable str_of_list : list string -> string.

(** Modelled from the spec: [fuzzer_profile.FuzzerProfile] is not part
    of this module. *)
Record FuzzerProfile : Type := mkFuzzer {
  target_lang : string;
  function_call_depths : option Calltree;
  all_class_functions : list (string * FunctionProfile)
}.

(** Modelled from the spec: [project_profile.MergedProjectProfile] is
    not part of this module; [runtime_coverage] is given by its
    line-hit query. *)
Record MergedProjectProfile : Type := mkProject {
  all_functions : list (string * FunctionProfile);
  runtime_coverage : string -> Z -> bool
}.

(** *** The corpus aggregator *)

(** [for (key, function) in registry.items(): ...] on the state
    [(function_list, function_name_list)]. *)
Definition add_functions (items : list (string * FunctionProfile))
    (st : list FunctionProfile * list string)
  : list FunctionProfile * list string :=
  fold_left
    (fun '(function_list, function_name_list) '(key, function) =>
       if bool_decide (key ∈ function_name_list)
       then (function_list, function_name_list)
       else (function_list ++ [function],
             function_name_list ++ [function_name function]))
    items st.

Definition retrieve_data_list
    (proj_profile : MergedProjectProfile) (profiles : list FuzzerProfile)
  : list CalltreeCallsite * list FunctionProfile :=
  let st := add_functions (all_functions proj_profile) ([], []) in
  let '(callsite_list, (function_list, _)) :=
    fold_left
      (fun '(callsite_list, st) profile =>
         let callsite_list :=
           match function_call_depths profile with
           | Some calltree => callsite_list ++ extract_all_callsites calltree
           | None => callsite_list
           end in
         (callsite_list, add_functions (all_class_functions profile) st))
      profiles ([], st) in
  (callsite_list, function_list).

(** *** The sink filter *)

(** The (package, func_name) key of a function; [None] is the
    [continue] of an unknown language. *)
Definition sink_key (target_lang : string) (fd : FunctionProfile)
  : result (option (string * string)) :=
  if String.eqb target_lang "c-cpp" then
    Ok (Some ("", demangle_cpp_func (function_name fd)))
  else if String.eqb target_lang "python" then
    Ok (Some (function_source_file fd, function_name fd))
  else if String.eqb target_lang "jvm" then
    key ← jvm_key (function_name fd); Ok (Some key)
  else Ok None.

Definition filter_function_list
    (functions : list FunctionProfile) (target_lang : string)
  : result (list FunctionProfile) :=
  for_each functions
    (fun function_list fd =>
       key ← sink_key target_lang fd;
       match key with
       | None => Ok function_list
       | Some key =>
           sinks ← items_get SINK_FUNCTION target_lang;
           if bool_decide (key ∈ sinks)
           then Ok (function_list ++ [fd])
           else Ok function_list
       end)
    [].

(** *** The analysis *)

(** One table row: the body of the loop over called locations. *)
Definition occurrence_row (proj_profile : MergedProjectProfile)
    (reachable_function_list : list string)
    (fd : FunctionProfile) (called_location : string) : result string :=
  '(fuzzer_hit, _) ←
    hit_loop (runtime_coverage proj_profile) called_location
             (incoming_references fd) [];
  Ok (html_table_add_row
        [ function_name fd;
          called_location;
          fmt_bool (bool_decide (called_location ∈ reachable_function_list));
          str_of_list (list_of_fuzzer_covered fd fuzzer_hit) ]).

Definition analysis_func
    (toc_list : list (string * string * Z)) (tables : list string)
    (proj_profile : MergedProjectProfile) (profiles : list FuzzerProfile)
    (basefolder coverage_url : string) (conclusions : list HTMLConclusion)
  : result (string * list (string * string * Z) * list string) :=
  (* Get full function / callsite list for all fuzzer's profiles *)
  let '(callsite_list, function_list) :=
    retrieve_data_list proj_profile profiles in
  (* Map callsites to each function *)
  let function_callsite_dict :=
    map_function_callsite function_list callsite_list in
  (* Discover reachable function calls *)
  reachable_function_list ←
    retrieve_reachable_functions function_list function_callsite_dict;
  let html_string := "" in
  let html_string := html_string +:+ "<div class=" +:+ dq +:+ "report-box" +:+ dq +:+ ">" in
  let '(header, toc_list) :=
    html_add_header_with_link "Function call coverage" 1 toc_list in
  let html_string := html_string +:+ header in
  let html_string := html_string +:+ "<div class=" +:+ dq +:+ "collapsible" +:+ dq +:+ ">" in
  let html_string := html_string +:+ section_text in
  let '(header, toc_list) :=
    html_add_header_with_link "Function in each files in report" 2 toc_list in
  let html_string := html_string +:+ header in
  let tables := tables ++ ["myTable" +:+ fmt_int (Z.of_nat (length tables))] in
  table_id ← index_last tables;
  let html_string :=
    html_string +:+ html_create_table_head table_id table_columns in
  profile ← index profiles 0;
  sinks ← filter_function_list function_list (target_lang profile);
  html_string ←
    for_each sinks
      (fun html_string fd =>
         called_locations ← getitem function_callsite_dict (function_name fd);
         for_each called_locations
           (fun html_string called_location =>
              row ← occurrence_row proj_profile reachable_function_list
                                   fd called_location;
              Ok (html_string +:+ row))
           html_string)
      html_string;
  let html_string := html_string +:+ "</table>" in
  let html_string := html_string +:+ "</div>" in
  let html_string := html_string +:+ "</div>" in
  Ok (html_string, toc_list, tables).

End Analysis.

Arguments target_lang {Calltree} _.
Arguments function_call_depths {Calltree} _.
Arguments all_class_functions {Calltree} _.
Arguments mkFuzzer {Calltree} _ _ _.

(** ** Notions used to state the properties *)

(** The destination of a call site is one of the known function names. *)
Definition known_destination (functions : list FunctionProfile)
    (callsite : CalltreeCallsite) : bool :=
  match dst_function_name callsite with
  | Some func_name => bool_decide (func_name ∈ function_name <$> functions)
  | None => false
  end.

(** A registry is keyed by the names of its functions. *)
Definition keyed_by_name (items : list (string * FunctionProfile)) : Prop :=
  Forall (fun item => item.1 = function_name item.2) items.

(** The functions of all registries in the order the aggregator visits
    them: the project-wide registry, then the registry of each profile. *)
Definition registry_values {Calltree : Type}
    (proj_profile : MergedProjectProfile)
    (profiles : list (FuzzerProfile Calltree)) : list FunctionProfile :=
  (snd <$> all_functions proj_profile)
  ++ concat ((fun profile => snd <$> all_class_functions profile) <$> profiles).

(** The first record of a list that has the given name. *)
Definition find_function (name : string) (l : list FunctionProfile)
  : option FunctionProfile :=
  List.find (fun function => String.eqb (function_name function) name) l.

(** Adding the records of [vs] to [acc], skipping a name already there. *)
Fixpoint add_new (acc vs : list FunctionProfile) : list FunctionProfile :=
  match vs with
  | [] => acc
  | function :: vs' =>
      if bool_decide (function_name function ∈ function_name <$> acc)
      then add_new acc vs'
      else add_new (acc ++ [function]) vs'
  end.

(** The callers the correlator queries: those up to and including the
    first one that is hit. *)
Fixpoint upto_first_hit (hit : string -> bool) (refs : list string)
  : list string :=
  match refs with
  | [] => []
  | parent_func :: rest =>
      if hit parent_func then [parent_func]
      else parent_func :: upto_first_hit hit rest
  end.

(** A function is a sink of the language: its key is in the catalogue. *)
Definition is_sink (demangle_cpp_func : string -> string)
    (target_lang : string) (fd : FunctionProfile) : bool :=
  match sink_key demangle_cpp_func target_lang fd with
  | Ok (Some key) =>
      match items_get SINK_FUNCTION target_lang with
      | Ok sinks => bool_decide (key ∈ sinks)
      | Raise _ => false
      end
  | _ => false
  end.

(** Every character of a string satisfies a test. *)
Fixpoint string_forall (P : ascii -> bool) (s : string) : bool :=
  match s with
  | EmptyString => true
  | String a s' => P a && string_forall P s'
  end.

(** The value of a sequence of decimal digits read after [acc]. *)
Fixpoint uint_value (acc : Z) (d : Decimal.uint) : Z :=
  match d with
  | Decimal.Nil => acc
  | Decimal.D0 d' => uint_value (10 * acc + 0) d'
  | Decimal.D1 d' => uint_value (10 * acc + 1) d'
  | Decimal.D2 d' => uint_value (10 * acc + 2) d'
  | Decimal.D3 d' => uint_value (10 * acc + 3) d'
  | Decimal.D4 d' => uint_value (10 * acc + 4) d'
  | Decimal.D5 d' => uint_value (10 * acc + 5) d'
  | Decimal.D6 d' => uint_value (10 * acc + 6) d'
  | Decimal.D7 d' => uint_value (10 * acc + 7) d'
  | Decimal.D8 d' => uint_value (10 * acc + 8) d'
  | Decimal.D9 d' => uint_value (10 * acc + 9) d'
  end.

(** The call sites of the profiles that have a call tree, in order. *)
Definition profile_callsites {Calltree : Type}
    (extract_all_callsites : Calltree -> list CalltreeCallsite)
    (profiles : list (FuzzerProfile Calltree)) : list CalltreeCallsite :=
  concat ((fun profile =>
             match function_call_depths profile with
             | Some calltree => extract_all_callsites calltree
             | None => []
             end) <$> profiles).

(** Every callee named by an outgoing-call mapping is a key of the index. *)
Definition callees_known (functions : list FunctionProfile)
    (function_callsites : gmap string (list string)) : Prop :=
  forall f, f ∈ functions -> forall callee d,
      (callee, d) ∈ callsite f -> callee ∈ dom function_callsites.

(** Some incoming reference of the sink is hit on the line read from the
    called location; not hit when no line can be read. *)
Definition occurrence_hit (is_func_lineno_hit : string -> Z -> bool)
    (fd : FunctionProfile) (called_location : string) : bool :=
  match lineno_of called_location with
  | Ok lineno =>
      existsb (fun p => is_func_lineno_hit p lineno) (incoming_references fd)
  | Raise _ => false
  end.

(** The row of one occurrence, with [False] in the reachability column. *)
Definition report_row (html_table_add_row : list string -> string)
    (str_of_list : list string -> string)
    (proj_profile : MergedProjectProfile)
    (fd : FunctionProfile) (called_location : string) : string :=
  html_table_add_row
    [ function_name fd; called_location; "False";
      str_of_list
        (if occurrence_hit (runtime_coverage proj_profile) fd called_location
         then reached_by_fuzzers fd else [""]) ].

(** The rows of the table: for each sink in order, one row for each of
    its called locations in the index. *)
Definition report_rows (html_table_add_row : list string -> string)
    (str_of_list : list string -> string)
    (proj_profile : MergedProjectProfile)
    (function_callsite_dict : gmap string (list string))
    (sinks : list FunctionProfile) : list string :=
  flat_map
    (fun fd =>
       List.map (report_row html_table_add_row str_of_list proj_profile fd)
                (default [] (function_callsite_dict !! function_name fd)))
    sinks.

(** The strings of a list one after the other. *)
Definition join (l : list string) : string := foldr String.append "" l.

(** * Properties *)

(** ** Sanity checks of the string primitives *)

Example int_examples :
  int " 42" = Ok 42 /\ int "-1_000" = Ok (-1000) /\ int "+7" = Ok 7 /\
  int "" = Raise ValueError /\ int "1__0" = Raise ValueError /\
  int "12a" = Raise ValueError.
Proof. repeat split; reflexivity. Qed.

Example split_examples :
  split ":" "a.c#f:12" = ["a.c#f"; "12"] /\ split ":" "" = [""] /\
  split ":" "a::b" = ["a"; ""; "b"].
Proof. repeat split; reflexivity. Qed.

Example rsplit1_examples :
  rsplit1 "." "a.b.c" = Some ("a.b", "c") /\ rsplit1 "." "abc" = None.
Proof. repeat split; reflexivity. Qed.

Example fmt_int_examples :
  fmt_int (-7) = "-7" /\ fmt_int 0 = "0" /\ fmt_int 120 = "120".
Proof. repeat split; reflexivity. Qed.

Example chars_example : chars "a:1" = ["a"; ":"; "1"].
Proof. reflexivity. Qed.

(** ** Loops *)

Lemma returns_Ok {A : Type} (a : A) : returns (Ok a).
Proof. by exists a. Qed.

Lemma returns_bind {A B : Type} (m : result A) (k : A -> result B) :
  returns m -> (forall a, m = Ok a -> returns (k a)) -> returns (m ≫= k).
Proof. intros [a ->] Hk. by apply Hk. Qed.

(** A loop returns when its body does, for every state that satisfies
    an invariant the body preserves. *)
Lemma for_each_inv {A S : Type} (I : S -> Prop) (l : list A)
    (body : S -> A -> result S) (s : S) :
  I s ->
  (forall s x, x ∈ l -> I s -> exists s', body s x = Ok s' /\ I s') ->
  exists s', for_each l body s = Ok s' /\ I s'.
Proof.
  revert s. induction l as [|x l IH]; intros s Hs Hbody; simpl.
  - eauto.
  - destruct (Hbody s x) as (s1 & -> & Hs1); [left | done |].
    simpl. apply IH; [done |].
    intros s2 y Hy. apply Hbody. by right.
Qed.

Lemma for_each_returns {A S : Type} (l : list A)
    (body : S -> A -> result S) (s : S) :
  (forall s x, x ∈ l -> returns (body s x)) -> returns (for_each l body s).
Proof.
  intros Hbody.
  destruct (for_each_inv (fun _ => True) l body s) as (s' & Hs' & _); [done | |].
  - intros s1 x Hx _. destruct (Hbody s1 x Hx) as [s2 ->]. eauto.
  - by exists s'.
Qed.

(** ** Strings *)

Lemma contains_app (c : ascii) (s t : string) :
  contains c (s +:+ t) = contains c s || contains c t.
Proof.
  induction s as [|a s IH]; simpl; [done |].
  destruct (Ascii.eqb a c); [done | apply IH].
Qed.

Lemma split_nonempty (sep : ascii) (s : string) : split sep s <> [].
Proof.
  destruct s as [|a s]; simpl; [done |].
  destruct (Ascii.eqb a sep); [done |].
  by destruct (split sep s).
Qed.

(** [s.split(sep)[1]] exists when [sep] occurs in [s]. *)
Lemma split_second (sep : ascii) (s : string) :
  contains sep s = true -> returns (index (split sep s) 1).
Proof.
  induction s as [|a s IH]; simpl; [done |].
  destruct (Ascii.eqb a sep) eqn:E.
  - intros _. pose proof (split_nonempty sep s) as Hne.
    unfold index. destruct (split sep s) as [|h t]; [done |].
    simpl. apply returns_Ok.
  - intros Hc. specialize (IH Hc). unfold index in *.
    destruct (split sep s) as [|h [|h' t]]; simpl in *;
      try (by destruct IH); apply returns_Ok.
Qed.

Lemma descriptor_has_colon (callsite : CalltreeCallsite) :
  contains ":" (descriptor callsite) = true.
Proof.
  unfold descriptor, format_descriptor.
  rewrite !contains_app. simpl. by rewrite !orb_true_r.
Qed.

Lemma for_each_preserves {A S : Type} (I : S -> Prop) (l : list A)
    (body : S -> A -> result S) (s s' : S) :
  (forall s x s', body s x = Ok s' -> I s -> I s') ->
  for_each l body s = Ok s' -> I s -> I s'.
Proof.
  intros Hbody. revert s. induction l as [|x l IH]; intros s; simpl.
  - intros [= ->]. done.
  - destruct (body s x) as [s1|e] eqn:E; simpl; [|done].
    intros Hl Hs. apply (IH s1 Hl). by apply (Hbody s x).
Qed.

(** ** The callsite indexer *)

Lemma dom_init_fold (functions : list FunctionProfile)
    (d : gmap string (list string)) :
  dom (fold_left (fun d function => <[function_name function := []]> d)
                 functions d)
  = dom d ∪ list_to_set (function_name <$> functions).
Proof.
  revert d. induction functions as [|f fs IH]; intros d; simpl.
  - set_solver.
  - rewrite IH, dom_insert_L. set_solver.
Qed.

Lemma dom_init_callsite_dict (functions : list FunctionProfile) :
  dom (init_callsite_dict functions) = list_to_set (function_name <$> functions).
Proof. unfold init_callsite_dict. rewrite dom_init_fold. set_solver. Qed.

Lemma init_fold_empty_lists (functions : list FunctionProfile)
    (d : gmap string (list string)) (k : string) (l : list string) :
  (forall k l, d !! k = Some l -> l = []) ->
  fold_left (fun d function => <[function_name function := []]> d)
            functions d !! k = Some l ->
  l = [].
Proof.
  revert d. induction functions as [|f fs IH]; intros d Hd; simpl.
  - apply Hd.
  - apply IH. intros k' l'. rewrite lookup_insert.
    case_decide; [congruence | apply Hd].
Qed.

Lemma dom_add_callsite (d : gmap string (list string)) (c : CalltreeCallsite) :
  dom (add_callsite d c) = dom d.
Proof.
  unfold add_callsite. destruct (dst_function_name c) as [n|]; [|done].
  destruct (d !! n) as [l|] eqn:E; [|done].
  rewrite dom_insert_L. apply elem_of_dom_2 in E. set_solver.
Qed.

Lemma dom_add_callsites (cs : list CalltreeCallsite)
    (d : gmap string (list string)) :
  dom (fold_left add_callsite cs d) = dom d.
Proof.
  revert d. induction cs as [|c cs IH]; intros d; simpl; [done |].
  by rewrite IH, dom_add_callsite.
Qed.

Lemma dom_map_function_callsite
    (functions : list FunctionProfile) (callsites : list CalltreeCallsite) :
  dom (map_function_callsite functions callsites)
  = list_to_set (function_name <$> functions).
Proof.
  unfold map_function_callsite.
  by rewrite dom_fmap_L, dom_add_callsites, dom_init_callsite_dict.
Qed.

(** A call site whose destination is not a key leaves the dictionary as
    it is. *)
Lemma add_callsite_unknown (d : gmap string (list string))
    (c : CalltreeCallsite) :
  (forall n, dst_function_name c = Some n -> n ∉ dom d) ->
  add_callsite d c = d.
Proof.
  intros Hc. unfold add_callsite.
  destruct (dst_function_name c) as [n|]; [|done].
  destruct (d !! n) as [l|] eqn:E; [|done].
  exfalso. apply (Hc n eq_refl). by apply elem_of_dom_2 in E.
Qed.

Lemma add_callsites_filter (functions : list FunctionProfile)
    (cs : list CalltreeCallsite) (d : gmap string (list string)) :
  dom d = list_to_set (function_name <$> functions) ->
  fold_left add_callsite cs d
  = fold_left add_callsite (List.filter (known_destination functions) cs) d.
Proof.
  revert d. induction cs as [|c cs IH]; intros d Hd; simpl; [done |].
  destruct (known_destination functions c) eqn:K; simpl.
  - apply IH. by rewrite dom_add_callsite.
  - rewrite add_callsite_unknown; [by apply IH |].
    intros n Hn. unfold known_destination in K. rewrite Hn in K.
    apply bool_decide_eq_false in K. rewrite Hd. set_solver.
Qed.

(** Every entry of the dictionary was put there by a call site of that
    destination. *)
Lemma add_callsites_provenance (cs : list CalltreeCallsite)
    (d : gmap string (list string)) (k : string) (l : list string) (x : string) :
  fold_left add_callsite cs d !! k = Some l -> x ∈ l ->
  (exists l0, d !! k = Some l0 /\ x ∈ l0) \/
  (exists c, c ∈ cs /\ dst_function_name c = Some k /\ descriptor c = x).
Proof.
  revert d. induction cs as [|c cs IH]; intros d Hl Hx; simpl in *.
  - left. eauto.
  - destruct (IH _ Hl Hx) as [(l0 & Hl0 & Hx0) | (c' & Hc' & Hdst & Hdesc)].
    + unfold add_callsite in Hl0.
      destruct (dst_function_name c) as [n|] eqn:En; [|left; eauto].
      destruct (d !! n) as [ln|] eqn:E; [|left; eauto].
      rewrite lookup_insert in Hl0. case_decide as Hk.
      * subst n. injection Hl0 as <-.
        apply elem_of_app in Hx0 as [Hx0 | Hx0].
        -- left. eauto.
        -- apply list_elem_of_singleton in Hx0. subst x.
           right. exists c. split; [left | done].
      * left. eauto.
    + right. exists c'. split; [by right | done].
Qed.

Lemma map_function_callsite_provenance
    (functions : list FunctionProfile) (callsites : list CalltreeCallsite)
    (k : string) (l : list string) (x : string) :
  map_function_callsite functions callsites !! k = Some l -> x ∈ l ->
  exists c, c ∈ callsites /\ dst_function_name c = Some k /\ descriptor c = x.
Proof.
  unfold map_function_callsite. rewrite lookup_fmap.
  destruct (fold_left add_callsite callsites (init_callsite_dict functions) !! k)
    as [l1|] eqn:E; simpl; [|done].
  intros [= <-] Hx. unfold list_set in Hx. rewrite elem_of_remove_dups in Hx.
  destruct (add_callsites_provenance _ _ _ _ _ E Hx)
    as [(l0 & Hl0 & Hx0) | Hc]; [|done].
  unfold init_callsite_dict in Hl0.
  apply init_fold_empty_lists in Hl0; [|by intros ? ?; rewrite lookup_empty].
  subst l0. by apply elem_of_nil in Hx0.
Qed.

(** C10 (as amended).  The keys of the callsite index are exactly the
    names of the functions given to the indexer; the call sites whose
    destination is not one of these names are discarded, that is, the
    index is the one built from the remaining call sites alone; and every
    descriptor stored under a key is the descriptor of a call site of the
    input whose destination is that key. *)
Theorem map_function_callsite_keys_and_entries
    (functions : list FunctionProfile) (callsites : list CalltreeCallsite) :
  dom (map_function_callsite functions callsites)
    = list_to_set (function_name <$> functions)
  /\ map_function_callsite functions callsites
     = map_function_callsite functions
         (List.filter (known_destination functions) callsites)
  /\ forall k l x,
       map_function_callsite functions callsites !! k = Some l -> x ∈ l ->
       exists c, c ∈ callsites /\ dst_function_name c = Some k
                 /\ descriptor c = x.
Proof.
  split; [apply dom_map_function_callsite |].
  split; [|apply map_function_callsite_provenance].
  unfold map_function_callsite. f_equal.
  apply add_callsites_filter, dom_init_callsite_dict.
Qed.

(** C10 (as stated) fails: two calls on one line of one file, the first
    to a known function and the second to an unknown one, have the same
    descriptor string, so the descriptor of the discarded call site is
    found under the key of the known function. *)
Lemma discarded_descriptor_under_known_key :
  ~ (forall functions callsites c,
       c ∈ callsites -> known_destination functions c = false ->
       forall k l, map_function_callsite functions callsites !! k = Some l ->
                   descriptor c ∉ l).
Proof.
  intros H.
  pose (kept := mkCallsite (Some "main") (Some "a.c") 3 (Some "f") None None).
  pose (dropped := mkCallsite (Some "main") (Some "a.c") 3 (Some "g") None None).
  apply (H [mkFunction "f" "a.c" [] [] []] [kept; dropped] dropped
           ltac:(right; left) eq_refl "f" ["a.c#a.c:3"] eq_refl).
  vm_compute. left.
Qed.

(** ** Descriptor resolution *)

(** [_get_parent_func_name] never reads the call site's own
    source-function name: two call sites that differ in that attribute
    only have the same descriptor. *)
Lemma descriptor_ignores_src_function_name
    (n1 n2 file dst dstfile : option string) (line : Z)
    (parent : option CalltreeCallsite) :
  descriptor (mkCallsite n1 file line dst dstfile parent)
  = descriptor (mkCallsite n2 file line dst dstfile parent).
Proof. reflexivity. Qed.

(** C2, at the failing input.  For a call site in function [caller] of
    file [a.c], line 7, the enclosing-caller segment of the descriptor
    is the source file [a.c], not the source-function name [caller]. *)
Theorem parent_func_name_is_source_file :
  let callsite :=
    mkCallsite (Some "caller") (Some "a.c") 7 (Some "system") None None in
  _get_parent_func_name callsite = Some "a.c"
  /\ descriptor callsite = "a.c#a.c:7"
  /\ descriptor callsite
     <> format_descriptor (Some "a.c") (src_function_name callsite) 7.
Proof. repeat split. vm_compute. discriminate. Qed.

(** An absent source file that is the empty string stays the empty
    string when there is no parent node. *)
Lemma source_file_empty_no_parent (n dst dstfile : option string) (line : Z) :
  _get_source_file (mkCallsite n (Some "") line dst dstfile None) = Some "".
Proof. reflexivity. Qed.

(** C5, at the failing input.  For a call site whose source file is
    [None] and which has no parent node, [_get_source_file] returns
    [None], and the source-file segment of the descriptor is the text
    [None], not the empty string. *)
Theorem source_file_none_no_parent :
  let callsite := mkCallsite None None 5 (Some "system") None None in
  _get_source_file callsite = None
  /\ descriptor callsite = "None#None:5"
  /\ index (split "#" (descriptor callsite)) 0 = Ok "None".
Proof. repeat split. Qed.

(** ** The reachability resolver *)

(** Whatever the resolver returns consists of one-character strings. *)
Lemma reachable_elements_are_characters
    (functions : list FunctionProfile)
    (function_callsites : gmap string (list string)) (l : list string) :
  retrieve_reachable_functions functions function_callsites = Ok l ->
  forall x, x ∈ l -> String.length x = 1%nat.
Proof.
  unfold retrieve_reachable_functions.
  set (I := fun l : list string => forall x, x ∈ l -> String.length x = 1%nat).
  destruct (for_each functions _ []) as [fl|e] eqn:E; simpl; [|done].
  intros [= <-] x Hx. unfold list_set in Hx. rewrite elem_of_remove_dups in Hx.
  revert x Hx. fold (I fl).
  eapply (for_each_preserves I); [| exact E | by intros x Hx; apply elem_of_nil in Hx].
  intros s f s' Hf Hs.
  eapply (for_each_preserves I); [| exact Hf | exact Hs].
  clear. intros s [func_name callsite_str] s'; simpl.
  destruct (getitem function_callsites func_name) as [known|e]; simpl; [|done].
  case_bool_decide; intros [= <-] Hs; [|done].
  intros x Hx. apply elem_of_app in Hx as [Hx | Hx]; [by apply Hs |].
  unfold chars in Hx. apply list_elem_of_fmap in Hx as (c & -> & _). done.
Qed.

(** C1, at the failing input.  Function [main] records the outgoing call
    [system -> main.c#main:42] and the index holds that descriptor
    under [system]; the resolver returns the characters of the
    descriptor, so the descriptor is not in the result, and the result
    holds [m], which is no descriptor of the index. *)
Theorem reachable_holds_characters_not_descriptor :
  let main :=
    mkFunction "main" "main.c" [] [] [("system", "main.c#main:42")] in
  let function_callsites : gmap string (list string) :=
    <["system" := ["main.c#main:42"]]> (<["main" := []]> ∅) in
  function_callsites !! "system" = Some ["main.c#main:42"]
  /\ retrieve_reachable_functions [main] function_callsites
     = Ok ["."; "c"; "#"; "m"; "a"; "i"; "n"; ":"; "4"; "2"]
  /\ "main.c#main:42" ∉ ["."; "c"; "#"; "m"; "a"; "i"; "n"; ":"; "4"; "2"].
Proof.
  split; [reflexivity |]. split; [vm_compute; reflexivity |].
  intros H. repeat (apply elem_of_cons in H as [H | H]; [discriminate |]).
  by apply elem_of_nil in H.
Qed.

(** C3, at the failing input.  Function [main] records an outgoing call
    to [puts], which is no key of the index: the resolver raises
    [KeyError]. *)
Theorem reachable_unknown_callee_raises :
  let main := mkFunction "main" "main.c" [] [] [("puts", "main.c#main:3")] in
  let function_callsites : gmap string (list string) := <["main" := []]> ∅ in
  function_callsites !! "puts" = None
  /\ retrieve_reachable_functions [main] function_callsites
     = Raise (KeyError "puts").
Proof. split; vm_compute; reflexivity. Qed.

(** ** The sink filter: the [jvm] key *)

(** [s.split(sep)[0]] is the text before the first [sep]. *)
Lemma split_first (sep : ascii) (s : string) :
  exists base rest,
    s = base +:+ rest /\ contains sep base = false
    /\ (rest = "" \/ exists r, rest = String sep r)
    /\ index (split sep s) 0 = Ok base.
Proof.
  induction s as [|a s (base & rest & Hs & Hbase & Hrest & Hidx)].
  - exists "", "". repeat split; auto.
  - simpl. destruct (Ascii.eqb a sep) eqn:E.
    + apply Ascii.eqb_eq in E. subst a.
      exists "", (String sep s). repeat split; eauto.
    + exists (String a base), rest. simpl. rewrite E.
      split; [by rewrite Hs |]. repeat split; auto.
      unfold index in *. destruct (split sep s) as [|h t]; [done |].
      simpl in *. congruence.
Qed.

Lemma rsplit1_None (sep : ascii) (s : string) :
  rsplit1 sep s = None -> contains sep s = false.
Proof.
  induction s as [|a s IH]; simpl; [done |].
  destruct (rsplit1 sep s) as [[x y]|]; [done |].
  destruct (Ascii.eqb a sep); [done | auto].
Qed.

(** [s.rsplit(sep, 1)] cuts at the last [sep]. *)
Lemma rsplit1_Some (sep : ascii) (s x y : string) :
  rsplit1 sep s = Some (x, y) ->
  s = x +:+ String sep y /\ contains sep y = false.
Proof.
  revert x. induction s as [|a s IH]; intros x; simpl; [done |].
  destruct (rsplit1 sep s) as [[x' y']|] eqn:E.
  - intros [= <- <-]. destruct (IH x' eq_refl) as [-> Hy]. done.
  - destruct (Ascii.eqb a sep) eqn:Ea; [|done].
    intros [= <- <-]. apply Ascii.eqb_eq in Ea. subst a.
    split; [done | by apply rsplit1_None].
Qed.

Lemma jvm_key_spec (name : string) :
  exists base rest,
    name = base +:+ rest /\ contains "(" base = false
    /\ (rest = "" \/ exists r, rest = String "(" r)
    /\ if contains "." base
       then exists package method,
              jvm_key name = Ok (package, method)
              /\ base = package +:+ String "." method
              /\ contains "." method = false
       else jvm_key name = Ok ("default", base).
Proof.
  destruct (split_first "(" name) as (base & rest & Hname & Hbase & Hrest & Hidx).
  exists base, rest. repeat split; try done.
  unfold jvm_key. rewrite Hidx. simpl.
  destruct (contains "." base) eqn:Hdot; [|done].
  destruct (rsplit1 "." base) as [[package method]|] eqn:E.
  - exists package, method. split; [done |]. by apply rsplit1_Some.
  - apply rsplit1_None in E. congruence.
Qed.

Lemma jvm_key_returns (name : string) : returns (jvm_key name).
Proof.
  destruct (jvm_key_spec name) as (base & rest & _ & _ & _ & H).
  destruct (contains "." base).
  - destruct H as (package & method & -> & _). apply returns_Ok.
  - rewrite H. apply returns_Ok.
Qed.

(** C7.  The [jvm] key of a raw name: the name is cut before its first
    opening parenthesis; when what remains holds a dot it is cut at its
    last dot into package and method, and otherwise the package is
    [default].  The raw name [java.lang.Runtime.exec(Ljava/lang/String;)]
    gives package [java.lang.Runtime] and method [exec], and the filter
    keeps a function of that name. *)
Theorem jvm_key_derivation :
  (forall name, exists base rest,
      name = base +:+ rest /\ contains "(" base = false
      /\ (rest = "" \/ exists r, rest = String "(" r)
      /\ if contains "." base
         then exists package method,
                jvm_key name = Ok (package, method)
                /\ base = package +:+ String "." method
                /\ contains "." method = false
         else jvm_key name = Ok ("default", base))
  /\ jvm_key "java.lang.Runtime.exec(Ljava/lang/String;)"
     = Ok ("java.lang.Runtime", "exec")
  /\ forall demangle_cpp_func file refs fuzzers calls,
       let fd := mkFunction "java.lang.Runtime.exec(Ljava/lang/String;)"
                            file refs fuzzers calls in
       filter_function_list demangle_cpp_func [fd] "jvm" = Ok [fd].
Proof.
  split; [apply jvm_key_spec |]. split; [reflexivity |].
  intros. vm_compute. reflexivity.
Qed.

(** ** The corpus aggregator *)

Lemma add_new_app (acc vs ws : list FunctionProfile) :
  add_new acc (vs ++ ws) = add_new (add_new acc vs) ws.
Proof.
  revert acc. induction vs as [|f vs IH]; intros acc; simpl; [done |].
  case_bool_decide; apply IH.
Qed.

Lemma add_new_NoDup (acc vs : list FunctionProfile) :
  NoDup (function_name <$> acc) ->
  NoDup (function_name <$> add_new acc vs).
Proof.
  revert acc. induction vs as [|f vs IH]; intros acc Hacc; simpl; [done |].
  case_bool_decide as Hin; apply IH; [done |].
  rewrite fmap_app. apply NoDup_app. repeat split; [done | | apply NoDup_singleton].
  intros n Hn Hf. apply list_elem_of_singleton in Hf. by subst n.
Qed.

Lemma find_function_app (name : string) (l1 l2 : list FunctionProfile) :
  find_function name (l1 ++ l2)
  = match find_function name l1 with
    | Some f => Some f
    | None => find_function name l2
    end.
Proof.
  unfold find_function. induction l1 as [|f l1 IH]; simpl; [done |].
  by destruct (String.eqb (function_name f) name).
Qed.

Lemma find_function_elem (name : string) (l : list FunctionProfile) :
  name ∈ function_name <$> l -> is_Some (find_function name l).
Proof.
  unfold find_function. induction l as [|f l IH]; simpl.
  - intros H. by apply elem_of_nil in H.
  - intros H. destruct (String.eqb (function_name f) name) eqn:E; [by eexists |].
    apply elem_of_cons in H as [-> | H]; [|by apply IH].
    by rewrite String.eqb_refl in E.
Qed.

(** The record kept for a name is the first one met. *)
Lemma add_new_find (name : string) (acc vs : list FunctionProfile) :
  find_function name (add_new acc vs) = find_function name (acc ++ vs).
Proof.
  revert acc. induction vs as [|f vs IH]; intros acc; simpl.
  - by rewrite app_nil_r.
  - case_bool_decide as Hin.
    + rewrite IH, !find_function_app.
      destruct (find_function name acc) as [g|] eqn:Eg; [done |].
      unfold find_function at 2. simpl.
      destruct (String.eqb (function_name f) name) eqn:E; [|done].
      apply String.eqb_eq in E. subst name.
      apply find_function_elem in Hin as [g Hg]. congruence.
    + by rewrite IH, <- app_assoc.
Qed.

(** On a registry keyed by name the loop of the aggregator is [add_new],
    and the list of names stays the list of the names of the functions. *)
Lemma add_functions_keyed (items : list (string * FunctionProfile))
    (function_list : list FunctionProfile) :
  keyed_by_name items ->
  add_functions items (function_list, function_name <$> function_list)
  = (add_new function_list (snd <$> items),
     function_name <$> add_new function_list (snd <$> items)).
Proof.
  unfold add_functions.
  revert function_list. induction items as [|[key f] items IH];
    intros function_list Hkeyed; simpl; [done |].
  apply Forall_cons in Hkeyed as [Hkey Hkeyed]. simpl in Hkey. subst key.
  case_bool_decide as Hin; [by apply IH |].
  specialize (IH (function_list ++ [f]) Hkeyed).
  rewrite fmap_app in IH. exact IH.
Qed.

Section Aggregator.

Context {Calltree : Type}.
Variable extract_all_callsites : Calltree -> list CalltreeCallsite.

Lemma retrieve_data_list_add_new
    (proj_profile : MergedProjectProfile)
    (profiles : list (FuzzerProfile Calltree)) :
  keyed_by_name (all_functions proj_profile) ->
  Forall (fun profile => keyed_by_name (all_class_functions profile)) profiles ->
  (retrieve_data_list Calltree extract_all_callsites proj_profile profiles).2
  = add_new [] (registry_values proj_profile profiles).
Proof.
  intros Hproj Hprofiles. unfold retrieve_data_list, registry_values.
  pose proof (add_functions_keyed _ [] Hproj) as Hinit.
  change (function_name <$> []) with (@nil string) in Hinit.
  rewrite Hinit, add_new_app. clear Hinit.
  generalize (add_new [] (snd <$> all_functions proj_profile)) as fl.
  generalize (@nil CalltreeCallsite) as cl.
  induction Hprofiles as [|profile profiles Hkeyed _ IH]; intros cl fl; simpl.
  - done.
  - rewrite (add_functions_keyed _ fl Hkeyed), add_new_app. apply IH.
Qed.

(** C8.  The aggregator visits the project-wide registry and then the
    registry of each profile, and adds a function only when its name
    was not added before: no two records of the aggregated list have
    the same name, and for every name the record of that name in the
    aggregated list is the first record of that name met on the way
    (none when no registry declares the name). *)
Theorem retrieve_data_list_first_seen
    (proj_profile : MergedProjectProfile)
    (profiles : list (FuzzerProfile Calltree)) :
  keyed_by_name (all_functions proj_profile) ->
  Forall (fun profile => keyed_by_name (all_class_functions profile)) profiles ->
  let function_list :=
    (retrieve_data_list Calltree extract_all_callsites proj_profile profiles).2 in
  NoDup (function_name <$> function_list)
  /\ forall name,
       find_function name function_list
       = find_function name (registry_values proj_profile profiles).
Proof.
  intros Hproj Hprofiles. simpl.
  rewrite (retrieve_data_list_add_new _ _ Hproj Hprofiles). split.
  - apply add_new_NoDup. simpl. apply NoDup_nil_2.
  - intros name. by rewrite add_new_find.
Qed.

End Aggregator.

Lemma retrieve_data_list_first_seen_witness :
  let foo1 := mkFunction "foo" "a.c" [] ["fuzzer1"] [] in
  let foo2 := mkFunction "foo" "b.c" [] ["fuzzer2"] [] in
  let proj_profile := mkProject [] (fun _ _ => false) in
  let profiles :=
    [ mkFuzzer "c-cpp" (None : option unit) [("foo", foo1)];
      mkFuzzer "c-cpp" None [("foo", foo2)] ] in
  let function_list :=
    (retrieve_data_list unit (fun _ => []) proj_profile profiles).2 in
  function_list = [foo1]
  /\ NoDup (function_name <$> function_list)
  /\ forall name,
       find_function name function_list
       = find_function name (registry_values proj_profile profiles).
Proof.
  split; [reflexivity |].
  apply (retrieve_data_list_first_seen (fun _ : unit => [])); repeat constructor.
Defined.

(** ** The coverage correlator *)

Lemma hit_loop_parsed (is_func_lineno_hit : string -> Z -> bool)
    (called_location : string) (lineno : Z) (refs : list string)
    (queries : list (string * Z)) :
  lineno_of called_location = Ok lineno ->
  hit_loop is_func_lineno_hit called_location refs queries
  = Ok (existsb (fun p => is_func_lineno_hit p lineno) refs,
        queries ++ ((fun p => (p, lineno)) <$>
                      upto_first_hit (fun p => is_func_lineno_hit p lineno) refs)).
Proof.
  intros Hline. revert queries.
  induction refs as [|p refs IH]; intros queries; simpl.
  - by rewrite app_nil_r.
  - rewrite Hline. destruct (is_func_lineno_hit p lineno); simpl; [done |].
    by rewrite IH, <- app_assoc.
Qed.

Lemma hit_loop_unparsable (is_func_lineno_hit : string -> Z -> bool)
    (called_location : string) (refs : list string)
    (queries : list (string * Z)) :
  lineno_of called_location = Raise ValueError ->
  hit_loop is_func_lineno_hit called_location refs queries = Ok (false, queries).
Proof.
  intros Hline. induction refs as [|p refs IH]; simpl; [done |].
  by rewrite Hline.
Qed.

(** [int] raises nothing but [ValueError]. *)
Lemma int_total (s : string) : returns (int s) \/ int s = Raise ValueError.
Proof.
  unfold int.
  match goal with
  | |- context [match ?body with Some _ => _ | None => _ end] =>
      destruct body
  end; [left; apply returns_Ok | by right].
Qed.

Lemma lineno_of_descriptor (called_location : string) :
  contains ":" called_location = true ->
  returns (lineno_of called_location)
  \/ lineno_of called_location = Raise ValueError.
Proof.
  intros Hc. unfold lineno_of.
  destruct (split_second ":" called_location Hc) as [field ->]. simpl.
  apply int_total.
Qed.

Lemma hit_loop_returns (is_func_lineno_hit : string -> Z -> bool)
    (called_location : string) (refs : list string) :
  contains ":" called_location = true ->
  returns (hit_loop is_func_lineno_hit called_location refs []).
Proof.
  intros Hc. destruct (lineno_of_descriptor _ Hc) as [[lineno Hline] | Hline].
  - rewrite (hit_loop_parsed _ _ lineno _ _ Hline). apply returns_Ok.
  - rewrite (hit_loop_unparsable _ _ _ _ Hline). apply returns_Ok.
Qed.

(** The queried callers are the ones before the first hit and that hit
    itself; the callers after it are not queried. *)
Lemma upto_first_hit_split (hit : string -> bool) (refs : list string) :
  if existsb hit refs
  then exists before p after,
         refs = before ++ p :: after
         /\ Forall (fun q => hit q = false) before /\ hit p = true
         /\ upto_first_hit hit refs = before ++ [p]
  else upto_first_hit hit refs = refs /\ Forall (fun q => hit q = false) refs.
Proof.
  induction refs as [|p refs IH]; simpl; [done |].
  destruct (hit p) eqn:Hp; simpl.
  - exists [], p, refs. repeat split; done.
  - destruct (existsb hit refs).
    + destruct IH as (before & q & after & -> & Hbefore & Hq & ->).
      exists (p :: before), q, after. repeat split; try done.
      by apply Forall_cons.
    + destruct IH as [-> Hall]. split; [done | by apply Forall_cons].
Qed.

(** C9.  For one sink function and one called location whose line number
    parses, the correlator asks the line-hit query for the callers in
    order and stops at the first one that is hit; the occurrence is hit
    exactly when some caller is; the row reports the whole
    [reached_by_fuzzers] list of the sink when it is hit and the marker
    [[""]] when it is not.  When the line number does not parse no query
    is made and the row reports the marker. *)
Theorem coverage_correlation_first_hit
    (html_table_add_row : list string -> string)
    (str_of_list : list string -> string)
    (proj_profile : MergedProjectProfile)
    (reachable_function_list : list string)
    (fd : FunctionProfile) (called_location : string) :
  let is_hit := runtime_coverage proj_profile in
  let refs := incoming_references fd in
  let row covered :=
    html_table_add_row
      [ function_name fd; called_location;
        fmt_bool (bool_decide (called_location ∈ reachable_function_list));
        str_of_list covered ] in
  let reported :=
    occurrence_row html_table_add_row str_of_list proj_profile
                   reachable_function_list fd called_location in
  match lineno_of called_location with
  | Ok lineno =>
      let hit := existsb (fun p => is_hit p lineno) refs in
      hit_loop is_hit called_location refs []
      = Ok (hit, (fun p => (p, lineno)) <$>
                   upto_first_hit (fun p => is_hit p lineno) refs)
      /\ reported = Ok (row (if hit then reached_by_fuzzers fd else [""]))
  | Raise ValueError =>
      hit_loop is_hit called_location refs [] = Ok (false, [])
      /\ reported = Ok (row [""])
  | Raise e =>
      hit_loop is_hit called_location refs []
      = match refs with [] => Ok (false, []) | _ => Raise e end
  end.
Proof.
  simpl. unfold occurrence_row.
  destruct (lineno_of called_location) as [lineno|e] eqn:Hline.
  - rewrite (hit_loop_parsed _ _ lineno _ _ Hline). simpl.
    split; [done |]. unfold list_of_fuzzer_covered. done.
  - destruct e as [key| |].
    + destruct (incoming_references fd); simpl; [done | by rewrite Hline].
    + destruct (incoming_references fd); simpl; [done | by rewrite Hline].
    + by rewrite (hit_loop_unparsable _ _ _ _ Hline).
Qed.

Example coverage_correlation_example :
  let fd := mkFunction "system" "os" ["init"; "run"; "stop"] ["fuzz_a"; "fuzz_b"] [] in
  let is_hit p n := String.eqb p "run" && (n =? 42) in
  hit_loop is_hit "main.py#run:42" (incoming_references fd) []
  = Ok (true, [("init", 42); ("run", 42)])
  /\ hit_loop is_hit "main.py#run:41" (incoming_references fd) []
     = Ok (false, [("init", 41); ("run", 41); ("stop", 41)])
  /\ hit_loop is_hit "main.py#run:4x" (incoming_references fd) []
     = Ok (false, []).
Proof. repeat split; reflexivity. Qed.

(** C4, at the failing input.  A call site on line 12 whose parent node
    is the function [ns::run] of [a.cpp] has the descriptor
    [a.cpp#ns::run:12].  The suffix after its final colon is [12], but
    the correlator reads the second colon-separated field, which is
    empty: the line number does not parse, the caller is skipped and the
    occurrence is not marked as hit although line 12 is hit. *)
Theorem lineno_is_second_field :
  let parent :=
    mkCallsite None None 3 (Some "ns::run") (Some "a.cpp") None in
  let callsite :=
    mkCallsite None None 12 (Some "system") None (Some parent) in
  let called_location := descriptor callsite in
  called_location = "a.cpp#ns::run:12"
  /\ rsplit1 ":" called_location = Some ("a.cpp#ns::run", "12")
  /\ int "12" = Ok 12
  /\ index (split ":" called_location) 1 = Ok ""
  /\ lineno_of called_location = Raise ValueError
  /\ hit_loop (fun _ lineno => lineno =? 12) called_location ["ns::run"] []
     = Ok (false, []).
Proof. repeat split; reflexivity. Qed.

(** ** The whole analysis *)

Lemma getitem_returns {V : Type} (d : gmap string V) (k : string) :
  k ∈ dom d -> returns (getitem d k).
Proof.
  intros [v Hv]%elem_of_dom. unfold getitem. rewrite Hv. apply returns_Ok.
Qed.

(** The resolver returns when every callee it looks up is a key. *)
Lemma retrieve_reachable_functions_returns
    (functions : list FunctionProfile)
    (function_callsites : gmap string (list string)) :
  (forall f, f ∈ functions -> forall callee d,
       (callee, d) ∈ callsite f -> callee ∈ dom function_callsites) ->
  returns (retrieve_reachable_functions functions function_callsites).
Proof.
  intros Hkeys. unfold retrieve_reachable_functions.
  apply returns_bind; [|intros; apply returns_Ok].
  apply for_each_returns. intros s f Hf.
  apply for_each_returns. intros s' [callee d] Hitem.
  apply returns_bind; [by apply getitem_returns, (Hkeys f Hf callee d) |].
  intros known _. case_bool_decide; apply returns_Ok.
Qed.

Lemma index_last_snoc {A : Type} (l : list A) (x : A) :
  index_last (l ++ [x]) = Ok x.
Proof. unfold index_last. by rewrite rev_unit. Qed.

Section AnalysisProperties.

Context {Calltree HTMLConclusion : Type}.
Variable extract_all_callsites : Calltree -> list CalltreeCallsite.
Variable demangle_cpp_func : string -> string.
Variable html_add_header_with_link :
  string -> Z -> list (string * string * Z) -> string * list (string * string * Z).
Variable html_create_table_head : string -> list (string * string) -> string.
Variable html_table_add_row : list string -> string.
Variable str_of_list : list string -> string.

Lemma sink_key_returns (target_lang : string) (fd : FunctionProfile) :
  exists key, sink_key demangle_cpp_func target_lang fd = Ok key
              /\ (is_Some key -> returns (items_get SINK_FUNCTION target_lang)).
Proof.
  unfold sink_key.
  destruct (String.eqb target_lang "c-cpp") eqn:E1.
  { apply String.eqb_eq in E1. subst. eexists. split; [done |].
    intros _. apply returns_Ok. }
  destruct (String.eqb target_lang "python") eqn:E2.
  { apply String.eqb_eq in E2. subst. eexists. split; [done |].
    intros _. apply returns_Ok. }
  destruct (String.eqb target_lang "jvm") eqn:E3.
  { apply String.eqb_eq in E3. subst.
    destruct (jvm_key_returns (function_name fd)) as [key ->].
    eexists. split; [done |]. intros _. apply returns_Ok. }
  exists None. split; [done |]. by intros [? ?].
Qed.

(** The filter returns, and what it keeps is among the functions. *)
Lemma filter_function_list_returns
    (functions : list FunctionProfile) (target_lang : string) :
  exists sinks,
    filter_function_list demangle_cpp_func functions target_lang = Ok sinks
    /\ forall fd, fd ∈ sinks -> fd ∈ functions.
Proof.
  unfold filter_function_list.
  apply (for_each_inv (fun acc => forall fd, fd ∈ acc -> fd ∈ functions)).
  - intros fd H. by apply elem_of_nil in H.
  - intros acc fd Hfd Hacc.
    destruct (sink_key_returns target_lang fd) as (key & -> & Hsinks).
    cbn [mbind result_bind].
    destruct key as [key|]; [|eauto].
    destruct (Hsinks ltac:(by eexists)) as [sinks ->].
    cbn [mbind result_bind].
    case_bool_decide as Hkey; [|eauto].
    eexists. split; [done |].
    intros fd' [Hfd' | Hfd']%elem_of_app; [by apply Hacc |].
    apply list_elem_of_singleton in Hfd'. by subst.
Qed.

Lemma occurrence_row_returns (proj_profile : MergedProjectProfile)
    (reachable_function_list : list string) (fd : FunctionProfile)
    (called_location : string) :
  contains ":" called_location = true ->
  returns (occurrence_row html_table_add_row str_of_list proj_profile
             reachable_function_list fd called_location).
Proof.
  intros Hc. unfold occurrence_row.
  destruct (hit_loop_returns (runtime_coverage proj_profile) called_location
              (incoming_references fd) Hc) as [[hit queries] ->].
  apply returns_Ok.
Qed.

(** C6 (as amended).  When the list of profiles is not empty and every
    callee named in the outgoing-call mapping of an aggregated function
    is the name of an aggregated function, the analysis returns a report
    string. *)
Theorem analysis_func_returns
    (toc_list : list (string * string * Z)) (tables : list string)
    (proj_profile : MergedProjectProfile)
    (profiles : list (FuzzerProfile Calltree))
    (basefolder coverage_url : string) (conclusions : list HTMLConclusion) :
  profiles <> [] ->
  (let function_list :=
     (retrieve_data_list Calltree extract_all_callsites proj_profile profiles).2 in
   forall f, f ∈ function_list -> forall callee d,
       (callee, d) ∈ callsite f -> callee ∈ function_name <$> function_list) ->
  returns
    (analysis_func Calltree extract_all_callsites demangle_cpp_func
       html_add_header_with_link html_create_table_head html_table_add_row
       HTMLConclusion str_of_list
       toc_list tables proj_profile profiles basefolder coverage_url conclusions).
Proof.
  intros Hprofiles Hcallees. unfold analysis_func.
  destruct (retrieve_data_list _ _ _ _) as [callsite_list function_list].
  simpl in Hcallees.
  pose proof (dom_map_function_callsite function_list callsite_list) as Hdom.
  apply returns_bind.
  { apply retrieve_reachable_functions_returns.
    intros f Hf callee d Hitem. rewrite Hdom, elem_of_list_to_set. eauto. }
  intros reachable _.
  destruct (html_add_header_with_link "Function call coverage" 1 toc_list)
    as [header1 toc1].
  destruct (html_add_header_with_link "Function in each files in report" 2 toc1)
    as [header2 toc2].
  rewrite index_last_snoc. simpl.
  destruct profiles as [|profile profiles']; [done |]. simpl.
  destruct (filter_function_list_returns function_list (target_lang profile))
    as (sinks & -> & Hsinks). simpl.
  apply returns_bind; [|intros; apply returns_Ok].
  apply for_each_returns. intros html fd Hfd.
  apply returns_bind.
  { apply getitem_returns. rewrite Hdom, elem_of_list_to_set.
    apply list_elem_of_fmap. exists fd. split; [done | by apply Hsinks]. }
  intros called_locations Hget.
  apply for_each_returns. intros html' called_location Hloc.
  apply returns_bind; [|intros; apply returns_Ok].
  apply occurrence_row_returns.
  unfold getitem in Hget.
  destruct (map_function_callsite function_list callsite_list !! function_name fd)
    as [l|] eqn:E; [|done].
  injection Hget as ->.
  destruct (map_function_callsite_provenance _ _ _ _ _ E Hloc)
    as (c & _ & _ & <-).
  apply descriptor_has_colon.
Qed.

End AnalysisProperties.

(** C6 (as stated) fails: with an empty list of profiles the analysis
    raises [IndexError] at [profiles[0]]. *)
Lemma analysis_func_empty_profiles_raises :
  ~ returns
      (analysis_func unit (fun _ => []) (fun name => name)
         (fun title _ toc => (title, toc)) (fun table_id _ => table_id)
         (String.concat "") unit (String.concat ",")
         [] [] (mkProject [] (fun _ _ => false)) [] "" "" []).
Proof. intros [report H]. vm_compute in H. discriminate. Qed.

Lemma analysis_func_returns_witness :
  let main :=
    mkFunction "main" "main.c" [] ["fuzzer"] [("system", "main.c#main.c:7")] in
  let system := mkFunction "system" "stdlib.h" ["main"] ["fuzzer"] [] in
  let callsite :=
    mkCallsite (Some "main") (Some "main.c") 7 (Some "system") None None in
  let proj_profile :=
    mkProject [("main", main); ("system", system)] (fun _ _ => true) in
  let profiles := [mkFuzzer "c-cpp" (Some tt) []] in
  returns
    (analysis_func unit (fun _ => [callsite]) (fun name => name)
       (fun title _ toc => (title, toc)) (fun table_id _ => table_id)
       (String.concat "") unit (String.concat ",")
       [] [] proj_profile profiles "" "" []).
Proof.
  apply (analysis_func_returns (HTMLConclusion := unit)); [discriminate |].
  simpl. intros f Hf callee d Hitem.
  apply elem_of_cons in Hf as [-> | Hf].
  - apply list_elem_of_singleton in Hitem. injection Hitem as -> ->.
    right. left.
  - apply list_elem_of_singleton in Hf. subst f. by apply elem_of_nil in Hitem.
Defined.

(** * Further properties of the analysis *)

(** ** Loops, continued *)

Lemma for_each_raise {A S : Type} (l : list A)
    (body : S -> A -> result S) (s : S) (e : exn) :
  for_each l body s = Raise e -> exists s' x, x ∈ l /\ body s' x = Raise e.
Proof.
  revert s. induction l as [|x l IH]; intros s; simpl; [done |].
  destruct (body s x) as [s1|e1] eqn:E; cbn [mbind result_bind].
  - intros (s' & y & Hy & Hbody)%IH. exists s', y. split; [by right | done].
  - intros [= ->]. exists s, x. split; [left | done].
Qed.

(** ** The sink filter, continued *)

Lemma List_filter_sublist {A : Type} (P : A -> bool) (l : list A) :
  List.filter P l `sublist_of` l.
Proof.
  induction l as [|x l IH]; simpl; [constructor |].
  destruct (P x); by constructor.
Qed.

Lemma filter_body_is_sink (demangle_cpp_func : string -> string)
    (target_lang : string) (acc : list FunctionProfile) (fd : FunctionProfile) :
  (key ← sink_key demangle_cpp_func target_lang fd;
   match key with
   | None => Ok acc
   | Some key =>
       sinks ← items_get SINK_FUNCTION target_lang;
       if bool_decide (key ∈ sinks) then Ok (acc ++ [fd]) else Ok acc
   end)
  = Ok (if is_sink demangle_cpp_func target_lang fd then acc ++ [fd] else acc).
Proof.
  unfold is_sink.
  destruct (sink_key_returns demangle_cpp_func target_lang fd)
    as (key & -> & Hsinks).
  cbn [mbind result_bind]. destruct key as [key|]; [|done].
  destruct (Hsinks ltac:(by eexists)) as [sinks ->].
  cbn [mbind result_bind]. by case_bool_decide.
Qed.

Lemma filter_loop_filter (demangle_cpp_func : string -> string)
    (functions : list FunctionProfile) (target_lang : string)
    (acc : list FunctionProfile) :
  for_each functions
    (fun function_list fd =>
       key ← sink_key demangle_cpp_func target_lang fd;
       match key with
       | None => Ok function_list
       | Some key =>
           sinks ← items_get SINK_FUNCTION target_lang;
           if bool_decide (key ∈ sinks)
           then Ok (function_list ++ [fd])
           else Ok function_list
       end)
    acc
  = Ok (acc ++ List.filter (is_sink demangle_cpp_func target_lang) functions).
Proof.
  revert acc.
  induction functions as [|fd fs IH]; intros acc; cbn [for_each List.filter].
  - by rewrite app_nil_r.
  - rewrite filter_body_is_sink. cbn [mbind result_bind]. rewrite IH.
    destruct (is_sink demangle_cpp_func target_lang fd); [|done].
    by rewrite <- app_assoc.
Qed.

(** The loop of the filter is a filter. *)
Lemma filter_function_list_filter (demangle_cpp_func : string -> string)
    (functions : list FunctionProfile) (target_lang : string) :
  filter_function_list demangle_cpp_func functions target_lang
  = Ok (List.filter (is_sink demangle_cpp_func target_lang) functions).
Proof. unfold filter_function_list. by rewrite filter_loop_filter. Qed.

(** X1.  For every language tag the filter returns; the functions it
    keeps are a sublist of its input, in the same order, and a function
    is kept exactly when its key is computed and is an entry of the
    catalogue of the language. *)
Theorem filter_function_list_keeps_catalogue_keys
    (demangle_cpp_func : string -> string)
    (functions : list FunctionProfile) (target_lang : string) :
  exists sinks,
    filter_function_list demangle_cpp_func functions target_lang = Ok sinks
    /\ sinks `sublist_of` functions
    /\ forall fd,
         fd ∈ sinks <->
         fd ∈ functions
         /\ exists key catalogue,
              sink_key demangle_cpp_func target_lang fd = Ok (Some key)
              /\ items_get SINK_FUNCTION target_lang = Ok catalogue
              /\ key ∈ catalogue.
Proof.
  eexists. split; [apply filter_function_list_filter |].
  split; [apply List_filter_sublist |].
  intros fd. rewrite list_elem_of_In, filter_In, <- list_elem_of_In.
  apply and_iff_compat_l. unfold is_sink. split.
  - destruct (sink_key _ _ _) as [[key|]|e]; try done.
    destruct (items_get _ _) as [catalogue|e]; [|done].
    intros Hkey%bool_decide_eq_true. eauto.
  - intros (key & catalogue & -> & -> & Hkey). by apply bool_decide_eq_true.
Qed.

(** X2.  For a language tag other than [c-cpp], [python] and [jvm] the
    filter keeps nothing, whatever the functions are. *)
Theorem filter_function_list_unknown_language
    (demangle_cpp_func : string -> string)
    (functions : list FunctionProfile) (target_lang : string) :
  target_lang <> "c-cpp" -> target_lang <> "python" -> target_lang <> "jvm" ->
  filter_function_list demangle_cpp_func functions target_lang = Ok [].
Proof.
  intros H1%String.eqb_neq H2%String.eqb_neq H3%String.eqb_neq.
  rewrite filter_function_list_filter. f_equal.
  induction functions as [|fd fs IH]; simpl; [done |].
  unfold is_sink at 1, sink_key. by rewrite H1, H2, H3.
Qed.

Lemma filter_function_list_unknown_language_witness :
  filter_function_list (fun name => name)
    [mkFunction "system" "os" [] [] []] "rust" = Ok [].
Proof.
  apply filter_function_list_unknown_language; discriminate.
Defined.

Lemma split_first_app (sep : ascii) (base rest : string) :
  contains sep base = false ->
  index (split sep (base +:+ String sep rest)) 0 = Ok base.
Proof.
  induction base as [|a base IH]; simpl.
  - intros _. change ("" +:+ String sep rest) with (String sep rest).
    cbn [split]. by rewrite Ascii.eqb_refl.
  - destruct (Ascii.eqb a sep) eqn:E; [done |]. intros Hbase.
    specialize (IH Hbase). unfold index in *.
    destruct (split sep (base +:+ String sep rest)) as [|h t]; [done |].
    simpl in *. congruence.
Qed.

Lemma split_first_whole (sep : ascii) (base : string) :
  contains sep base = false -> index (split sep base) 0 = Ok base.
Proof.
  induction base as [|a base IH]; simpl; [done |].
  destruct (Ascii.eqb a sep) eqn:E; [done |]. intros Hbase.
  specialize (IH Hbase). unfold index in *.
  destruct (split sep base) as [|h t]; [done |]. simpl in *. congruence.
Qed.

(** X3.  The [jvm] key does not depend on the parameter signature: a raw
    name with a signature has the key of the name without it, so the
    overloads of a method have one key. *)
Theorem jvm_key_ignores_signature (base signature : string) :
  contains "(" base = false ->
  jvm_key (base +:+ String "(" signature) = jvm_key base.
Proof.
  intros Hbase. unfold jvm_key.
  by rewrite (split_first_app _ _ _ Hbase), (split_first_whole _ _ Hbase).
Qed.

Lemma jvm_key_ignores_signature_witness :
  jvm_key ("java.lang.Thread.sleep" +:+ String "(" "J)V")
  = jvm_key "java.lang.Thread.sleep".
Proof. apply jvm_key_ignores_signature. reflexivity. Defined.

(** X4.  Under [jvm] a function whose name before the signature holds no
    dot gets the package [default], which no entry of the catalogue has:
    such a function is never kept. *)
Theorem jvm_default_package_never_kept
    (demangle_cpp_func : string -> string)
    (functions : list FunctionProfile) (fd : FunctionProfile) (base : string) :
  index (split "(" (function_name fd)) 0 = Ok base ->
  contains "." base = false ->
  exists sinks,
    filter_function_list demangle_cpp_func functions "jvm" = Ok sinks
    /\ fd ∉ sinks.
Proof.
  intros Hbase Hdot. eexists. split; [apply filter_function_list_filter |].
  rewrite list_elem_of_In, filter_In. intros [_ Hsink].
  unfold is_sink, sink_key, jvm_key in Hsink. simpl in Hsink.
  rewrite Hbase in Hsink. cbn [mbind result_bind] in Hsink.
  rewrite Hdot in Hsink. cbn [mbind result_bind] in Hsink.
  apply bool_decide_eq_true in Hsink.
  repeat (apply elem_of_cons in Hsink as [Hsink | Hsink]; [discriminate |]).
  by apply elem_of_nil in Hsink.
Qed.

Lemma jvm_default_package_never_kept_witness :
  let fd := mkFunction "exec(Ljava/lang/String;)" "" [] [] [] in
  exists sinks,
    filter_function_list (fun name => name) [fd] "jvm" = Ok sinks
    /\ fd ∉ sinks.
Proof.
  apply (jvm_default_package_never_kept _ _ _ "exec"); reflexivity.
Defined.

(** ** The callsite indexer, continued *)

Lemma add_callsite_grows (d : gmap string (list string))
    (c : CalltreeCallsite) (k : string) (l0 : list string) :
  d !! k = Some l0 ->
  exists l1, add_callsite d c !! k = Some l1
             /\ (forall x, x ∈ l0 -> x ∈ l1)
             /\ (dst_function_name c = Some k -> descriptor c ∈ l1).
Proof.
  intros Hk. unfold add_callsite.
  destruct (dst_function_name c) as [n|] eqn:En; [|by exists l0].
  destruct (decide (n = k)) as [-> | Hne].
  - rewrite Hk, lookup_insert_eq. eexists. split; [done |].
    split; [intros x Hx | intros _]; apply elem_of_app; [by left | right; left].
  - destruct (d !! n) as [ln|]; [rewrite lookup_insert_ne by done |];
      exists l0; repeat split; try done; congruence.
Qed.

Lemma add_callsites_complete (cs : list CalltreeCallsite)
    (d : gmap string (list string)) (k : string) (l0 : list string) :
  d !! k = Some l0 ->
  exists l, fold_left add_callsite cs d !! k = Some l
            /\ (forall x, x ∈ l0 -> x ∈ l)
            /\ forall c, c ∈ cs -> dst_function_name c = Some k ->
                         descriptor c ∈ l.
Proof.
  revert d l0. induction cs as [|c cs IH]; intros d l0 Hk; simpl.
  - exists l0. repeat split; try done. intros c Hc. by apply elem_of_nil in Hc.
  - destruct (add_callsite_grows d c k l0 Hk) as (l1 & Hl1 & Hsub & Hc).
    destruct (IH _ _ Hl1) as (l & Hl & Hsub' & Hcs).
    exists l. repeat split; [done | by auto |].
    intros c' [-> | Hc']%elem_of_cons Hdst; [by auto | by apply Hcs].
Qed.

(** X5.  The index holds, under the name of a known function, exactly
    the descriptors of the call sites whose destination is that
    function, each of them once; under any other name it holds nothing. *)
Theorem map_function_callsite_entries
    (functions : list FunctionProfile) (callsites : list CalltreeCallsite) :
  map_Forall (fun _ l => NoDup l) (map_function_callsite functions callsites)
  /\ forall k x,
       (exists l, map_function_callsite functions callsites !! k = Some l
                  /\ x ∈ l)
       <-> k ∈ function_name <$> functions
           /\ exists c, c ∈ callsites /\ dst_function_name c = Some k
                        /\ descriptor c = x.
Proof.
  split.
  - intros k l. unfold map_function_callsite. rewrite lookup_fmap.
    destruct (_ !! k) as [l0|]; simpl; [|done].
    intros [= <-]. apply NoDup_remove_dups.
  - intros k x. split.
    + intros (l & Hl & Hx). split.
      * apply elem_of_dom_2 in Hl.
        by rewrite dom_map_function_callsite, elem_of_list_to_set in Hl.
      * by apply (map_function_callsite_provenance functions callsites k l).
    + intros (Hk & c & Hc & Hdst & <-).
      assert (k ∈ dom (init_callsite_dict functions)) as [l0 Hl0]%elem_of_dom
        by (by rewrite dom_init_callsite_dict, elem_of_list_to_set).
      destruct (add_callsites_complete callsites _ k l0 Hl0)
        as (l & Hl & _ & Hcs).
      exists (list_set l). unfold map_function_callsite.
      rewrite lookup_fmap, Hl. split; [done |].
      unfold list_set. rewrite elem_of_remove_dups. by apply Hcs.
Qed.

Lemma init_callsite_dict_lookup (functions : list FunctionProfile) (k : string) :
  init_callsite_dict functions !! k
  = if decide (k ∈ function_name <$> functions) then Some [] else None.
Proof.
  destruct (init_callsite_dict functions !! k) as [l|] eqn:E.
  - pose proof E as Hl. unfold init_callsite_dict in Hl.
    apply init_fold_empty_lists in Hl; [|by intros ? ?; rewrite lookup_empty].
    subst l. apply elem_of_dom_2 in E.
    rewrite dom_init_callsite_dict, elem_of_list_to_set in E.
    by rewrite decide_True.
  - apply not_elem_of_dom in E.
    rewrite dom_init_callsite_dict, elem_of_list_to_set in E.
    by rewrite decide_False.
Qed.

(** X6.  The index depends on the functions only through the set of
    their names: two lists of functions with the same names, in any
    order and with any repetition, give the same index. *)
Theorem map_function_callsite_names_only
    (functions1 functions2 : list FunctionProfile)
    (callsites : list CalltreeCallsite) :
  (forall name, name ∈ function_name <$> functions1
                <-> name ∈ function_name <$> functions2) ->
  map_function_callsite functions1 callsites
  = map_function_callsite functions2 callsites.
Proof.
  intros Hnames. unfold map_function_callsite. do 2 f_equal.
  apply map_eq. intros k. rewrite !init_callsite_dict_lookup.
  destruct (decide (k ∈ function_name <$> functions1)) as [H1 | H1].
  - by rewrite decide_True by (by apply Hnames).
  - by rewrite decide_False by (by rewrite <- Hnames).
Qed.

Lemma map_function_callsite_names_only_witness :
  let f := mkFunction "f" "a.c" [] [] [] in
  let g := mkFunction "g" "b.c" [] [] [] in
  let g' := mkFunction "g" "c.c" ["f"] ["fuzzer"] [("f", "a.c#g:1")] in
  let c := mkCallsite (Some "f") (Some "a.c") 3 (Some "g") None None in
  map_function_callsite [f; g] [c] = map_function_callsite [g'; f; g] [c].
Proof.
  apply map_function_callsite_names_only. intros name. simpl.
  rewrite !elem_of_cons. pose proof (elem_of_nil name). tauto.
Defined.

(** ** The reachability resolver, continued *)

Lemma for_each_Ok_body {A S : Type} (l : list A)
    (body : S -> A -> result S) (s s' : S) (x : A) :
  for_each l body s = Ok s' -> x ∈ l -> exists s1 s2, body s1 x = Ok s2.
Proof.
  revert s. induction l as [|y l IH]; intros s; simpl.
  - intros _ Hx. by apply elem_of_nil in Hx.
  - destruct (body s y) as [s1|e] eqn:E; cbn [mbind result_bind]; [|done].
    intros Hl [-> | Hx]%elem_of_cons; [eauto | by apply (IH s1)].
Qed.

Lemma resolver_Ok_callees_known
    (functions : list FunctionProfile)
    (function_callsites : gmap string (list string)) :
  returns (retrieve_reachable_functions functions function_callsites) ->
  callees_known functions function_callsites.
Proof.
  intros [l Hl] f Hf callee d Hitem.
  unfold retrieve_reachable_functions in Hl.
  destruct (for_each functions _ []) as [fl|e] eqn:E; [|done].
  destruct (for_each_Ok_body _ _ _ _ f E Hf) as (s1 & s2 & Hinner).
  destruct (for_each_Ok_body _ _ _ _ (callee, d) Hinner Hitem)
    as (s3 & s4 & Hbody).
  simpl in Hbody. unfold getitem in Hbody.
  destruct (function_callsites !! callee) as [known|] eqn:Ek; [|done].
  by apply elem_of_dom_2 in Ek.
Qed.

Lemma resolver_Raise_KeyError
    (functions : list FunctionProfile)
    (function_callsites : gmap string (list string)) (e : exn) :
  retrieve_reachable_functions functions function_callsites = Raise e ->
  exists f callee d,
    f ∈ functions /\ (callee, d) ∈ callsite f
    /\ function_callsites !! callee = None /\ e = KeyError callee.
Proof.
  intros He. unfold retrieve_reachable_functions in He.
  destruct (for_each functions _ []) as [fl|e'] eqn:E; [done |].
  cbn [mbind result_bind] in He. injection He as ->.
  apply for_each_raise in E as (s1 & f & Hf & Hinner).
  apply for_each_raise in Hinner as (s2 & [callee d] & Hitem & Hbody).
  exists f, callee, d. repeat split; try done;
    simpl in Hbody; unfold getitem in Hbody;
    destruct (function_callsites !! callee) as [known|]; try done;
    cbn [mbind result_bind] in Hbody; try (by case_bool_decide); congruence.
Qed.

(** X7.  The resolver returns exactly when every callee named in an
    outgoing-call mapping is a key of the index; otherwise it raises
    [KeyError] for such a callee that is no key. *)
Theorem retrieve_reachable_functions_returns_iff
    (functions : list FunctionProfile)
    (function_callsites : gmap string (list string)) :
  (returns (retrieve_reachable_functions functions function_callsites)
   <-> callees_known functions function_callsites)
  /\ forall e,
       retrieve_reachable_functions functions function_callsites = Raise e ->
       exists f callee d,
         f ∈ functions /\ (callee, d) ∈ callsite f
         /\ function_callsites !! callee = None /\ e = KeyError callee.
Proof.
  split; [split |].
  - apply resolver_Ok_callees_known.
  - apply retrieve_reachable_functions_returns.
  - apply resolver_Raise_KeyError.
Qed.

Lemma for_each_collects {A B : Type} (contrib : A -> B -> Prop) (l : list A)
    (body : list B -> A -> result (list B)) (s s' : list B) :
  (forall s x s', body s x = Ok s' ->
                  forall y, y ∈ s' <-> y ∈ s \/ contrib x y) ->
  for_each l body s = Ok s' ->
  forall y, y ∈ s' <-> y ∈ s \/ exists x, x ∈ l /\ contrib x y.
Proof.
  intros Hbody. revert s. induction l as [|x l IH]; intros s; simpl.
  - intros [= ->] y. split; [by left |].
    intros [Hy | (x & Hx & _)]; [done | by apply elem_of_nil in Hx].
  - destruct (body s x) as [s1|e] eqn:E; cbn [mbind result_bind]; [|done].
    intros Hl y. rewrite (IH s1 Hl y), (Hbody s x s1 E y). split.
    + intros [[Hy | Hy] | (x' & Hx' & Hy)]; [by left | |].
      * right. exists x. split; [left | done].
      * right. exists x'. split; [by right | done].
    + intros [Hy | (x' & [-> | Hx']%elem_of_cons & Hy)]; [by left; left | |].
      * left. by right.
      * right. by exists x'.
Qed.

(** X8.  When the resolver returns, its result has no duplicates and
    holds exactly the characters of the recorded descriptors that are
    found in the index under their callee. *)
Theorem retrieve_reachable_functions_result
    (functions : list FunctionProfile)
    (function_callsites : gmap string (list string)) (l : list string) :
  retrieve_reachable_functions functions function_callsites = Ok l ->
  NoDup l
  /\ forall x,
       x ∈ l <->
       exists f callee d known,
         f ∈ functions /\ (callee, d) ∈ callsite f
         /\ function_callsites !! callee = Some known /\ d ∈ known
         /\ x ∈ chars d.
Proof.
  unfold retrieve_reachable_functions.
  destruct (for_each functions _ []) as [fl|e] eqn:E; [|done].
  cbn [mbind result_bind]. intros [= <-].
  split; [apply NoDup_remove_dups |]. intros x.
  unfold list_set. rewrite elem_of_remove_dups.
  pose (inner := fun (item : string * string) (y : string) =>
    exists known, function_callsites !! item.1 = Some known
                  /\ item.2 ∈ known /\ y ∈ chars item.2).
  pose (outer := fun (f : FunctionProfile) (y : string) =>
    exists item, item ∈ callsite f /\ inner item y).
  assert (Hinner : forall s (item : string * string) s',
             (let '(func_name, callsite_str) := item in
              known ← getitem function_callsites func_name;
              if bool_decide (callsite_str ∈ known)
              then Ok (s ++ chars callsite_str) else Ok s) = Ok s' ->
             forall y, y ∈ s' <-> y ∈ s \/ inner item y).
  { intros s [callee d] s' Hbody y. unfold inner. simpl.
    unfold getitem in Hbody.
    destruct (function_callsites !! callee) as [known|]; [|done].
    cbn [mbind result_bind] in Hbody.
    case_bool_decide as Hd; injection Hbody as <-.
    - rewrite elem_of_app. split; [intros [?|?]; [by left | right; eauto] |].
      intros [? | (known' & [= <-] & _ & Hy)]; [by left | by right].
    - split; [by left |]. intros [? | (known' & [= <-] & ? & _)]; done. }
  assert (Houter : forall s f s',
             for_each (callsite f)
               (fun function_list '(func_name, callsite_str) =>
                  known ← getitem function_callsites func_name;
                  if bool_decide (callsite_str ∈ known)
                  then Ok (function_list ++ chars callsite_str)
                  else Ok function_list) s = Ok s' ->
             forall y, y ∈ s' <-> y ∈ s \/ outer f y).
  { intros s f s' Hf y. apply (for_each_collects inner _ _ _ _ Hinner Hf). }
  rewrite (for_each_collects outer _ _ _ _ Houter E x). split.
  - intros [Hx | (f & Hf & [callee d] & Hitem & known & Hk & Hd & Hy)];
      [by apply elem_of_nil in Hx |].
    by exists f, callee, d, known.
  - intros (f & callee & d & known & Hf & Hitem & Hk & Hd & Hy).
    right. exists f. split; [done |]. exists (callee, d). split; [done |].
    by exists known.
Qed.

Lemma retrieve_reachable_functions_result_witness :
  let main :=
    mkFunction "main" "main.c" [] [] [("system", "a#b:1"); ("exit", "a#b:2")] in
  let function_callsites : gmap string (list string) :=
    <["system" := ["a#b:1"]]> (<["exit" := []]> ∅) in
  exists l,
    retrieve_reachable_functions [main] function_callsites = Ok l
    /\ NoDup l
    /\ forall x,
         x ∈ l <->
         exists f callee d known,
           f ∈ [main] /\ (callee, d) ∈ callsite f
           /\ function_callsites !! callee = Some known /\ d ∈ known
           /\ x ∈ chars d.
Proof.
  eexists. split; [vm_compute; reflexivity |].
  apply retrieve_reachable_functions_result. vm_compute. reflexivity.
Defined.

Lemma descriptor_has_hash (callsite : CalltreeCallsite) :
  contains "#" (descriptor callsite) = true.
Proof.
  unfold descriptor, format_descriptor.
  rewrite !contains_app. simpl. by rewrite !orb_true_r.
Qed.

Lemma descriptor_not_character (callsite : CalltreeCallsite) :
  String.length (descriptor callsite) <> 1%nat.
Proof.
  pose proof (descriptor_has_hash callsite) as Hh.
  pose proof (descriptor_has_colon callsite) as Hc.
  destruct (descriptor callsite) as [|a [|b s]]; simpl in *; try done.
  destruct (Ascii.eqb_spec a "#"), (Ascii.eqb_spec a ":"); congruence.
Qed.

(** X9.  No descriptor of a call site is ever in the result of the
    resolver, so the analysis reports [False] in the reachability column
    for every called location of the index. *)
Theorem indexed_location_never_reachable
    (functions : list FunctionProfile)
    (function_callsites : gmap string (list string))
    (reachable_function_list : list string) :
  retrieve_reachable_functions functions function_callsites
    = Ok reachable_function_list ->
  (forall callsite, descriptor callsite ∉ reachable_function_list)
  /\ forall functions' callsites k l called_location,
       map_function_callsite functions' callsites !! k = Some l ->
       called_location ∈ l ->
       fmt_bool (bool_decide (called_location ∈ reachable_function_list))
       = "False".
Proof.
  intros Hreach.
  assert (forall callsite, descriptor callsite ∉ reachable_function_list)
    as Hnot.
  { intros callsite Hin.
    apply (descriptor_not_character callsite).
    by apply (reachable_elements_are_characters _ _ _ Hreach). }
  split; [done |].
  intros functions' callsites k l called_location Hl Hloc.
  destruct (map_function_callsite_provenance _ _ _ _ _ Hl Hloc)
    as (c & _ & _ & <-).
  by rewrite bool_decide_eq_false_2.
Qed.

Lemma indexed_location_never_reachable_witness :
  let main :=
    mkFunction "main" "main.c" [] [] [("system", "main.c#main.c:7")] in
  let system := mkFunction "system" "stdlib.h" ["main"] [] [] in
  let callsite :=
    mkCallsite (Some "main") (Some "main.c") 7 (Some "system") None None in
  let function_callsites := map_function_callsite [main; system] [callsite] in
  function_callsites !! "system" = Some ["main.c#main.c:7"]
  /\ exists reachable_function_list,
       retrieve_reachable_functions [main; system] function_callsites
         = Ok reachable_function_list
       /\ "main.c#main.c:7" ∉ reachable_function_list.
Proof.
  split; [vm_compute; reflexivity |].
  eexists. split; [vm_compute; reflexivity |].
  refine (proj1 (indexed_location_never_reachable
                   [mkFunction "main" "main.c" [] []
                               [("system", "main.c#main.c:7")];
                    mkFunction "system" "stdlib.h" ["main"] [] []]
                   (map_function_callsite
                      [mkFunction "main" "main.c" [] []
                                  [("system", "main.c#main.c:7")];
                       mkFunction "system" "stdlib.h" ["main"] [] []]
                      [mkCallsite (Some "main") (Some "main.c") 7
                                  (Some "system") None None])
                   _ _)
                (mkCallsite (Some "main") (Some "main.c") 7
                            (Some "system") None None)).
  vm_compute. reflexivity.
Defined.

(** ** The corpus aggregator, continued *)

Lemma add_functions_sublist (items : list (string * FunctionProfile))
    (function_list : list FunctionProfile) (names : list string) :
  exists added,
    (add_functions items (function_list, names)).1 = function_list ++ added
    /\ added `sublist_of` (snd <$> items).
Proof.
  unfold add_functions. revert function_list names.
  induction items as [|[key f] items IH]; intros function_list names; simpl.
  - exists []. by rewrite app_nil_r.
  - case_bool_decide.
    + destruct (IH function_list names) as (added & -> & Hsub).
      exists added. split; [done | by constructor].
    + destruct (IH (function_list ++ [f]) (names ++ [function_name f]))
        as (added & -> & Hsub).
      exists (f :: added). split; [by rewrite <- app_assoc | by constructor].
Qed.

Section AggregatorShape.

Context {Calltree : Type}.
Variable extract_all_callsites : Calltree -> list CalltreeCallsite.

Lemma retrieve_data_list_fold
    (profiles : list (FuzzerProfile Calltree))
    (callsite_list : list CalltreeCallsite)
    (st : list FunctionProfile * list string) :
  exists added names,
    fold_left
      (fun '(callsite_list, st) (profile : FuzzerProfile Calltree) =>
         let callsite_list :=
           match function_call_depths profile with
           | Some calltree => callsite_list ++ extract_all_callsites calltree
           | None => callsite_list
           end in
         (callsite_list, add_functions (all_class_functions profile) st))
      profiles (callsite_list, st)
    = (callsite_list ++ profile_callsites extract_all_callsites profiles,
       (st.1 ++ added, names))
    /\ added `sublist_of`
         concat ((fun profile => snd <$> all_class_functions profile) <$> profiles).
Proof.
  revert callsite_list st.
  induction profiles as [|profile profiles IH]; intros callsite_list st.
  - exists [], st.2. simpl. rewrite !app_nil_r. by destruct st.
  - simpl. destruct st as [function_list names0].
    destruct (add_functions_sublist (all_class_functions profile)
                function_list names0) as (added1 & Hadd1 & Hsub1).
    destruct (add_functions (all_class_functions profile) (function_list, names0))
      as [fl1 names1] eqn:E1. simpl in Hadd1. subst fl1.
    destruct (IH (match function_call_depths profile with
                  | Some calltree => callsite_list ++ extract_all_callsites calltree
                  | None => callsite_list
                  end) (function_list ++ added1, names1))
      as (added2 & names2 & Heq & Hsub2).
    exists (added1 ++ added2), names2. split; [|by apply sublist_app].
    etrans; [exact Heq |]. simpl. f_equal; [|by rewrite <- app_assoc].
    unfold profile_callsites. simpl.
    destruct (function_call_depths profile); [by rewrite <- app_assoc | done].
Qed.

(** X10.  The call sites the aggregator returns are those of the call
    trees of the profiles, profile after profile; a profile without a
    call tree gives none, and the function registries play no part. *)
Theorem retrieve_data_list_callsites
    (proj_profile : MergedProjectProfile)
    (profiles : list (FuzzerProfile Calltree)) :
  (retrieve_data_list Calltree extract_all_callsites proj_profile profiles).1
  = profile_callsites extract_all_callsites profiles.
Proof.
  unfold retrieve_data_list.
  destruct (retrieve_data_list_fold profiles []
              (add_functions (all_functions proj_profile) ([], [])))
    as (added & names & Heq & _).
  cbv zeta in *. by rewrite Heq.
Qed.

(** X11.  Whatever the keys of the registries are, the functions the
    aggregator returns are a sublist of the functions of the registries
    in the order it visits them: it invents no record and keeps the
    order of those it takes. *)
Theorem retrieve_data_list_functions_sublist
    (proj_profile : MergedProjectProfile)
    (profiles : list (FuzzerProfile Calltree)) :
  (retrieve_data_list Calltree extract_all_callsites proj_profile profiles).2
  `sublist_of` registry_values proj_profile profiles.
Proof.
  unfold retrieve_data_list, registry_values.
  destruct (add_functions_sublist (all_functions proj_profile) [] [])
    as (added0 & Hadd0 & Hsub0).
  destruct (retrieve_data_list_fold profiles []
              (add_functions (all_functions proj_profile) ([], [])))
    as (added & names & Heq & Hsub).
  cbv zeta in *. rewrite Heq. simpl. rewrite Hadd0. simpl.
  by apply sublist_app.
Qed.

End AggregatorShape.

(** ** The coverage correlator, continued *)

Lemma split_no_sep (sep : ascii) (s : string) :
  contains sep s = false -> split sep s = [s].
Proof.
  induction s as [|a s IH]; simpl; [done |].
  destruct (Ascii.eqb a sep); [done |]. intros Hs. by rewrite IH.
Qed.

Lemma split_app_sep (sep : ascii) (s t : string) :
  contains sep s = false ->
  split sep (s +:+ String sep t) = s :: split sep t.
Proof.
  induction s as [|a s IH]; simpl.
  - intros _. change ("" +:+ String sep t) with (String sep t).
    cbn [split]. by rewrite Ascii.eqb_refl.
  - destruct (Ascii.eqb a sep) eqn:E; [done |]. intros Hs. by rewrite IH.
Qed.

Lemma string_app_assoc (s t u : string) : (s +:+ t) +:+ u = s +:+ (t +:+ u).
Proof.
  induction s as [|a s IH]; [done |].
  change (String a ((s +:+ t) +:+ u) = String a (s +:+ (t +:+ u))).
  by rewrite IH.
Qed.

Lemma lstrip_id (s : string) :
  string_forall (fun c => negb (is_space c)) s = true -> lstrip s = s.
Proof.
  destruct s as [|a s]; simpl; [done |].
  intros [Ha _]%andb_prop. apply negb_true_iff in Ha. by rewrite Ha.
Qed.

Lemma rstrip_id (s : string) :
  string_forall (fun c => negb (is_space c)) s = true -> rstrip s = s.
Proof.
  induction s as [|a s IH]; simpl; [done |].
  intros [Ha Hs]%andb_prop. apply negb_true_iff in Ha.
  rewrite (IH Hs). destruct s; [by rewrite Ha | done].
Qed.

Lemma digits_no_space (d : Decimal.uint) :
  string_forall (fun c => negb (is_space c)) (NilEmpty.string_of_uint d) = true.
Proof. induction d; simpl; done. Qed.

Lemma digits_no_colon (d : Decimal.uint) :
  contains ":" (NilEmpty.string_of_uint d) = false.
Proof. induction d; simpl; done. Qed.

Lemma int_digits_uint (acc : Z) (d : Decimal.uint) :
  int_digits AfterDigit acc (NilEmpty.string_of_uint d)
  = Some (uint_value acc d).
Proof.
  revert acc. induction d; intros acc; [done | apply IHd ..].
Qed.

Ltac eval_digit :=
  match goal with
  | |- context [digit ?c] =>
      let v := eval vm_compute in (digit c) in
      change (digit c) with v
  end;
  cbv beta iota.

Lemma int_of_digits (d : Decimal.uint) :
  d <> Decimal.Nil ->
  int (NilEmpty.string_of_uint d) = Ok (uint_value 0 d).
Proof.
  intros Hd. unfold int.
  rewrite (lstrip_id _ (digits_no_space d)), (rstrip_id _ (digits_no_space d)).
  destruct d; [done | ..];
    cbn [NilEmpty.string_of_uint];
    match goal with
    | |- context [String ?c (NilEmpty.string_of_uint ?d')] =>
        change (match String c (NilEmpty.string_of_uint d') with
                | String "-" r => Z.opp <$> int_digits AtStart 0 r
                | String "+" r => int_digits AtStart 0 r
                | r => int_digits AtStart 0 r
                end)
          with (int_digits AtStart 0 (String c (NilEmpty.string_of_uint d')))
    end;
    cbn [int_digits]; eval_digit; by rewrite int_digits_uint.
Qed.

Lemma int_of_minus_digits (d : Decimal.uint) :
  d <> Decimal.Nil ->
  int (String "-" (NilEmpty.string_of_uint d)) = Ok (- uint_value 0 d).
Proof.
  intros Hd. unfold int.
  rewrite lstrip_id, rstrip_id
    by (cbn [string_forall]; by rewrite digits_no_space).
  change (match String "-" (NilEmpty.string_of_uint d) with
          | String "-" r => Z.opp <$> int_digits AtStart 0 r
          | String "+" r => int_digits AtStart 0 r
          | r => int_digits AtStart 0 r
          end)
    with (Z.opp <$> int_digits AtStart 0 (NilEmpty.string_of_uint d)).
  destruct d; [done | ..]; cbn [NilEmpty.string_of_uint int_digits];
    eval_digit; by rewrite int_digits_uint.
Qed.

Lemma uint_value_revapp (d d' : Decimal.uint) :
  uint_value (Z.of_N (DecimalPos.Unsigned.of_lu d')) d
  = Z.of_N (DecimalPos.Unsigned.of_lu (Decimal.revapp d d')).
Proof.
  revert d'. induction d; intros d'; cbn [uint_value Decimal.revapp];
    [done | rewrite <- IHd; f_equal; cbn [DecimalPos.Unsigned.of_lu]; lia ..].
Qed.

Lemma uint_value_to_uint (p : positive) :
  uint_value 0 (Pos.to_uint p) = Z.pos p.
Proof.
  change 0 with (Z.of_N (DecimalPos.Unsigned.of_lu Decimal.Nil)).
  rewrite uint_value_revapp.
  change (Decimal.revapp (Pos.to_uint p) Decimal.Nil)
    with (Decimal.rev (Pos.to_uint p)).
  by rewrite <- DecimalPos.Unsigned.of_uint_alt, DecimalPos.Unsigned.of_to.
Qed.

Lemma fmt_int_pos (p : positive) :
  fmt_int (Z.pos p) = NilEmpty.string_of_uint (Pos.to_uint p).
Proof.
  unfold fmt_int. simpl. unfold NilZero.string_of_uint.
  pose proof (DecimalPos.Unsigned.to_uint_nonnil p).
  by destruct (Pos.to_uint p).
Qed.

Lemma fmt_int_neg (p : positive) :
  fmt_int (Z.neg p) = String "-" (NilEmpty.string_of_uint (Pos.to_uint p)).
Proof.
  unfold fmt_int. simpl. unfold NilZero.string_of_uint.
  pose proof (DecimalPos.Unsigned.to_uint_nonnil p).
  by destruct (Pos.to_uint p).
Qed.

(** [int] reads back what ["%s"] writes for an integer. *)
Lemma int_fmt_int (n : Z) : int (fmt_int n) = Ok n.
Proof.
  destruct n as [|p|p].
  - reflexivity.
  - rewrite fmt_int_pos, int_of_digits, uint_value_to_uint;
      [done | apply DecimalPos.Unsigned.to_uint_nonnil].
  - rewrite fmt_int_neg, int_of_minus_digits, uint_value_to_uint;
      [done | apply DecimalPos.Unsigned.to_uint_nonnil].
Qed.

Lemma fmt_int_no_colon (n : Z) : contains ":" (fmt_int n) = false.
Proof.
  destruct n as [|p|p]; [done | |].
  - rewrite fmt_int_pos. apply digits_no_colon.
  - rewrite fmt_int_neg. simpl. apply digits_no_colon.
Qed.

(** X12.  Writing and reading the line number agree: for a call site
    whose resolved source file and caller segment hold no colon, the
    correlator reads from the descriptor the line number of the call
    site, and marks the occurrence as hit exactly when one of the
    incoming references is hit on that line. *)
Theorem descriptor_lineno_round_trip (callsite : CalltreeCallsite) :
  contains ":" (fmt_s (_get_source_file callsite)) = false ->
  contains ":" (fmt_s (_get_parent_func_name callsite)) = false ->
  lineno_of (descriptor callsite) = Ok (src_linenumber callsite)
  /\ forall is_func_lineno_hit refs,
       hit_loop is_func_lineno_hit (descriptor callsite) refs []
       = Ok (existsb (fun p => is_func_lineno_hit p (src_linenumber callsite))
                     refs,
             (fun p => (p, src_linenumber callsite)) <$>
               upto_first_hit
                 (fun p => is_func_lineno_hit p (src_linenumber callsite))
                 refs).
Proof.
  intros Hfile Hcaller.
  assert (lineno_of (descriptor callsite) = Ok (src_linenumber callsite))
    as Hline.
  { assert (descriptor callsite
            = (fmt_s (_get_source_file callsite) +:+ "#"
               +:+ fmt_s (_get_parent_func_name callsite))
              +:+ String ":" (fmt_int (src_linenumber callsite))) as ->
      by (unfold descriptor, format_descriptor;
          by rewrite !string_app_assoc).
    unfold lineno_of. rewrite split_app_sep.
    - rewrite (split_no_sep _ _ (fmt_int_no_colon _)). simpl.
      apply int_fmt_int.
    - rewrite !contains_app, Hfile, Hcaller. done. }
  split; [done |]. intros is_func_lineno_hit refs.
  by rewrite (hit_loop_parsed _ _ _ _ _ Hline).
Qed.

Lemma descriptor_lineno_round_trip_witness :
  let parent := mkCallsite None None 3 (Some "run") (Some "main.py") None in
  let callsite := mkCallsite None None (-42) (Some "system") None (Some parent) in
  descriptor callsite = "main.py#run:-42"
  /\ lineno_of (descriptor callsite) = Ok (-42).
Proof.
  split; [reflexivity |].
  apply (descriptor_lineno_round_trip
           (mkCallsite None None (-42) (Some "system") None
              (Some (mkCallsite None None 3 (Some "run") (Some "main.py") None))));
    reflexivity.
Defined.

(** X13.  The row of a called location taken from the index is always
    computed: whatever the call sites are, the correlator raises neither
    [IndexError] nor [ValueError] on it. *)
Theorem indexed_location_row_returns
    (html_table_add_row : list string -> string)
    (str_of_list : list string -> string)
    (functions : list FunctionProfile) (callsites : list CalltreeCallsite)
    (proj_profile : MergedProjectProfile)
    (reachable_function_list : list string) (fd : FunctionProfile)
    (k : string) (l : list string) (called_location : string) :
  map_function_callsite functions callsites !! k = Some l ->
  called_location ∈ l ->
  returns (occurrence_row html_table_add_row str_of_list proj_profile
             reachable_function_list fd called_location).
Proof.
  intros Hl Hloc. apply occurrence_row_returns.
  destruct (map_function_callsite_provenance _ _ _ _ _ Hl Hloc)
    as (c & _ & _ & <-).
  apply descriptor_has_colon.
Qed.

Lemma indexed_location_row_returns_witness :
  let system := mkFunction "system" "stdlib.h" ["main"] ["fuzzer"] [] in
  let callsite :=
    mkCallsite (Some "main") (Some "C:\main.c") 7 (Some "system") None None in
  map_function_callsite [system] [callsite] !! "system"
    = Some ["C:\main.c#C:\main.c:7"]
  /\ returns (occurrence_row (String.concat "|") (String.concat ",")
                (mkProject [] (fun _ _ => true)) [] system
                "C:\main.c#C:\main.c:7").
Proof.
  split; [vm_compute; reflexivity |].
  apply (indexed_location_row_returns _ _
           [mkFunction "system" "stdlib.h" ["main"] ["fuzzer"] []]
           [mkCallsite (Some "main") (Some "C:\main.c") 7 (Some "system")
                       None None]
           _ _ _ "system" ["C:\main.c#C:\main.c:7"]).
  - vm_compute. reflexivity.
  - left.
Defined.

Lemma existsb_Permutation {A : Type} (f : A -> bool) (l l' : list A) :
  l ≡ₚ l' -> existsb f l = existsb f l'.
Proof.
  induction 1 as [|x l l' _ IH|x y l|l l' l'' _ IH1 _ IH2]; simpl.
  - done.
  - by rewrite IH.
  - by destruct (f x), (f y).
  - by rewrite IH1.
Qed.

Lemma exn_eq_ValueError (e : exn) : e = ValueError \/ e <> ValueError.
Proof. destruct e; [by right | by right | by left]. Qed.

Lemma hit_loop_other_exception (is_func_lineno_hit : string -> Z -> bool)
    (called_location : string) (refs : list string)
    (queries : list (string * Z)) (e : exn) :
  lineno_of called_location = Raise e -> e <> ValueError ->
  hit_loop is_func_lineno_hit called_location refs queries
  = match refs with [] => Ok (false, queries) | _ => Raise e end.
Proof.
  intros Hline He. destruct refs as [|p refs]; simpl; [done |].
  rewrite Hline. by destruct e.
Qed.

(** X14.  The row of an occurrence does not depend on the order of the
    incoming references of the sink: two records of the sink that differ
    only by a permutation of that list give the same row, or raise the
    same exception. *)
Theorem occurrence_row_order_insensitive
    (html_table_add_row : list string -> string)
    (str_of_list : list string -> string)
    (proj_profile : MergedProjectProfile)
    (reachable_function_list : list string)
    (name file : string) (refs refs' fuzzers : list string)
    (calls : list (string * string)) (called_location : string) :
  refs ≡ₚ refs' ->
  occurrence_row html_table_add_row str_of_list proj_profile
    reachable_function_list
    (mkFunction name file refs fuzzers calls) called_location
  = occurrence_row html_table_add_row str_of_list proj_profile
      reachable_function_list
      (mkFunction name file refs' fuzzers calls) called_location.
Proof.
  intros Hperm. unfold occurrence_row. simpl.
  destruct (lineno_of called_location) as [lineno|e] eqn:Hline.
  - rewrite !(hit_loop_parsed _ _ lineno _ _ Hline).
    cbn [mbind result_bind]. unfold list_of_fuzzer_covered. simpl.
    by rewrite (existsb_Permutation _ _ _ Hperm).
  - destruct (exn_eq_ValueError e) as [-> | He].
    + by rewrite !(hit_loop_unparsable _ _ _ _ Hline).
    + rewrite !(hit_loop_other_exception _ _ _ _ _ Hline He).
      destruct refs as [|p refs], refs' as [|q refs']; try done.
      * by apply Permutation_nil_cons in Hperm.
      * symmetry in Hperm. by apply Permutation_nil_cons in Hperm.
Qed.

Lemma occurrence_row_order_insensitive_witness :
  occurrence_row (String.concat "|") (String.concat ",")
    (mkProject [] (fun p n => String.eqb p "run" && (n =? 42))) []
    (mkFunction "system" "os" ["init"; "run"] ["fuzzer"] []) "main.py#run:42"
  = occurrence_row (String.concat "|") (String.concat ",")
      (mkProject [] (fun p n => String.eqb p "run" && (n =? 42))) []
      (mkFunction "system" "os" ["run"; "init"] ["fuzzer"] []) "main.py#run:42".
Proof.
  apply occurrence_row_order_insensitive. apply Permutation_swap.
Defined.

(** ** The whole analysis, continued *)

Lemma join_app (l1 l2 : list string) : join (l1 ++ l2) = join l1 +:+ join l2.
Proof.
  unfold join. induction l1 as [|x l1 IH]; simpl; [done |].
  by rewrite IH, string_app_assoc.
Qed.

Section Report.

Context {Calltree HTMLConclusion : Type}.
Variable extract_all_callsites : Calltree -> list CalltreeCallsite.
Variable demangle_cpp_func : string -> string.
Variable html_add_header_with_link :
  string -> Z -> list (string * string * Z) -> string * list (string * string * Z).
Variable html_create_table_head : string -> list (string * string) -> string.
Variable html_table_add_row : list string -> string.
Variable str_of_list : list string -> string.

(** The row of an indexed location, when the reachable list holds
    characters only. *)
Lemma occurrence_row_report (proj_profile : MergedProjectProfile)
    (reachable_function_list : list string) (fd : FunctionProfile)
    (callsite : CalltreeCallsite) :
  descriptor callsite ∉ reachable_function_list ->
  occurrence_row html_table_add_row str_of_list proj_profile
    reachable_function_list fd (descriptor callsite)
  = Ok (report_row html_table_add_row str_of_list proj_profile fd
          (descriptor callsite)).
Proof.
  intros Hnot. unfold occurrence_row, report_row, occurrence_hit.
  rewrite (bool_decide_eq_false_2 _ Hnot).
  destruct (lineno_of_descriptor _ (descriptor_has_colon callsite))
    as [[lineno Hline] | Hline]; rewrite Hline.
  - by rewrite (hit_loop_parsed _ _ lineno _ _ Hline).
  - by rewrite (hit_loop_unparsable _ _ _ _ Hline).
Qed.

Lemma rows_loop (proj_profile : MergedProjectProfile)
    (reachable_function_list : list string) (fd : FunctionProfile)
    (called_locations : list string) (html_string : string) :
  (forall loc, loc ∈ called_locations ->
     exists c, descriptor c = loc /\ loc ∉ reachable_function_list) ->
  for_each called_locations
    (fun html_string called_location =>
       row ← occurrence_row html_table_add_row str_of_list proj_profile
               reachable_function_list fd called_location;
       Ok (html_string +:+ row))
    html_string
  = Ok (html_string
        +:+ join (List.map (report_row html_table_add_row str_of_list
                              proj_profile fd) called_locations)).
Proof.
  revert html_string.
  induction called_locations as [|loc locs IH]; intros html_string Hlocs.
  - simpl. unfold join. simpl. f_equal.
    induction html_string as [|a h IHh]; [done |].
    change (String a h = String a (h +:+ "")). by rewrite <- IHh.
  - cbn [for_each List.map].
    destruct (Hlocs loc ltac:(left)) as (c & <- & Hnot).
    rewrite (occurrence_row_report _ _ _ _ Hnot). cbn [mbind result_bind].
    rewrite IH by (intros loc' Hloc'; apply Hlocs; by right).
    unfold join. simpl. by rewrite string_app_assoc.
Qed.

Lemma sinks_loop (proj_profile : MergedProjectProfile)
    (reachable_function_list : list string)
    (function_callsite_dict : gmap string (list string))
    (sinks : list FunctionProfile) (html_string : string) :
  (forall fd, fd ∈ sinks -> function_name fd ∈ dom function_callsite_dict) ->
  (forall k l loc, function_callsite_dict !! k = Some l -> loc ∈ l ->
     exists c, descriptor c = loc /\ loc ∉ reachable_function_list) ->
  for_each sinks
    (fun html_string fd =>
       called_locations ← getitem function_callsite_dict (function_name fd);
       for_each called_locations
         (fun html_string called_location =>
            row ← occurrence_row html_table_add_row str_of_list proj_profile
                    reachable_function_list fd called_location;
            Ok (html_string +:+ row))
         html_string)
    html_string
  = Ok (html_string
        +:+ join (report_rows html_table_add_row str_of_list proj_profile
                    function_callsite_dict sinks)).
Proof.
  intros Hkeys Hlocs. revert html_string Hkeys.
  induction sinks as [|fd sinks IH]; intros html_string Hkeys.
  - simpl. unfold join. simpl. f_equal.
    induction html_string as [|a h IHh]; [done |].
    change (String a h = String a (h +:+ "")). by rewrite <- IHh.
  - cbn [for_each]. unfold report_rows. cbn [flat_map].
    assert (function_name fd ∈ dom function_callsite_dict) as Hfd
      by (apply Hkeys; left).
    apply elem_of_dom in Hfd as [l Hl].
    unfold getitem. rewrite Hl. cbn [mbind result_bind default].
    rewrite rows_loop by (intros loc Hloc; by apply (Hlocs (function_name fd) l)).
    cbn [mbind result_bind].
    rewrite IH by (intros fd' Hfd'; apply Hkeys; by right).
    by rewrite join_app, string_app_assoc.
Qed.

(** X15.  An exception of the resolver is the exception of the analysis;
    when the resolver returns and the list of profiles is empty the
    analysis raises [IndexError]. *)
Theorem analysis_func_exceptions
    (toc_list : list (string * string * Z)) (tables : list string)
    (proj_profile : MergedProjectProfile)
    (profiles : list (FuzzerProfile Calltree))
    (basefolder coverage_url : string) (conclusions : list HTMLConclusion) :
  let data :=
    retrieve_data_list Calltree extract_all_callsites proj_profile profiles in
  let function_callsite_dict := map_function_callsite data.2 data.1 in
  let analysis :=
    analysis_func Calltree extract_all_callsites demangle_cpp_func
      html_add_header_with_link html_create_table_head html_table_add_row
      HTMLConclusion str_of_list
      toc_list tables proj_profile profiles basefolder coverage_url conclusions in
  (~ callees_known data.2 function_callsite_dict ->
   exists f callee d,
     f ∈ data.2 /\ (callee, d) ∈ callsite f
     /\ (callee ∉ function_name <$> data.2)
     /\ analysis = Raise (KeyError callee))
  /\ (callees_known data.2 function_callsite_dict -> profiles = [] ->
      analysis = Raise IndexError).
Proof.
  simpl. unfold analysis_func.
  destruct (retrieve_data_list _ _ _ _) as [callsite_list function_list].
  simpl. split.
  - intros Hunknown.
    destruct (retrieve_reachable_functions function_list
                (map_function_callsite function_list callsite_list))
      as [reachable|e] eqn:E.
    + exfalso. apply Hunknown, resolver_Ok_callees_known. by eexists.
    + destruct (resolver_Raise_KeyError _ _ _ E)
        as (f & callee & d & Hf & Hitem & Hnone & ->).
      exists f, callee, d. repeat split; try done.
      apply not_elem_of_dom in Hnone.
      by rewrite dom_map_function_callsite, elem_of_list_to_set in Hnone.
  - intros Hknown ->.
    destruct (retrieve_reachable_functions_returns _ _ Hknown) as [reachable ->].
    cbn [mbind result_bind].
    destruct (html_add_header_with_link "Function call coverage" 1 toc_list)
      as [header1 toc1].
    destruct (html_add_header_with_link "Function in each files in report" 2 toc1)
      as [header2 toc2].
    by rewrite index_last_snoc.
Qed.

(** X16.  The report.  With a first profile and every named callee an
    aggregated function, the analysis returns: the two headers, in this
    order, extend the table of contents; one table name, numbered by the
    tables there were, is appended; and the text is the opening of the
    box, the headers, the introduction and the table head, then one row
    for each sink of the language of the first profile, in the order of
    the aggregated functions, and each of its called locations in the
    index, then the closing tags.  The reachability column of every row
    is [False]. *)
Theorem analysis_func_report
    (toc_list : list (string * string * Z)) (tables : list string)
    (proj_profile : MergedProjectProfile)
    (profile : FuzzerProfile Calltree)
    (profiles : list (FuzzerProfile Calltree))
    (basefolder coverage_url : string) (conclusions : list HTMLConclusion) :
  let data :=
    retrieve_data_list Calltree extract_all_callsites proj_profile
      (profile :: profiles) in
  let function_callsite_dict := map_function_callsite data.2 data.1 in
  let header1 :=
    html_add_header_with_link "Function call coverage" 1 toc_list in
  let header2 :=
    html_add_header_with_link "Function in each files in report" 2 header1.2 in
  let table_id := "myTable" +:+ fmt_int (Z.of_nat (length tables)) in
  let sinks :=
    List.filter (is_sink demangle_cpp_func (target_lang profile)) data.2 in
  callees_known data.2 function_callsite_dict ->
  analysis_func Calltree extract_all_callsites demangle_cpp_func
    html_add_header_with_link html_create_table_head html_table_add_row
    HTMLConclusion str_of_list
    toc_list tables proj_profile (profile :: profiles)
    basefolder coverage_url conclusions
  = Ok (join
          [ "<div class=" +:+ dq +:+ "report-box" +:+ dq +:+ ">";
            header1.1;
            "<div class=" +:+ dq +:+ "collapsible" +:+ dq +:+ ">";
            section_text;
            header2.1;
            html_create_table_head table_id table_columns;
            join (report_rows html_table_add_row str_of_list proj_profile
                    function_callsite_dict sinks);
            "</table>"; "</div>"; "</div>" ],
        header2.2,
        tables ++ [table_id]).
Proof.
  simpl. unfold analysis_func.
  destruct (retrieve_data_list _ _ _ _) as [callsite_list function_list].
  simpl. intros Hknown.
  destruct (retrieve_reachable_functions function_list
              (map_function_callsite function_list callsite_list))
    as [reachable|e] eqn:Hreach;
    [|destruct (retrieve_reachable_functions_returns _ _ Hknown); congruence].
  cbn [mbind result_bind].
  destruct (html_add_header_with_link "Function call coverage" 1 toc_list)
    as [header1 toc1]. simpl.
  destruct (html_add_header_with_link "Function in each files in report" 2 toc1)
    as [header2 toc2]. simpl.
  rewrite index_last_snoc. cbn [mbind result_bind index lookup list_lookup].
  rewrite filter_function_list_filter. cbn [mbind result_bind].
  rewrite sinks_loop.
  - cbn [mbind result_bind]. do 3 f_equal.
    unfold join. cbn [foldr]. rewrite !string_app_assoc. reflexivity.
  - intros fd Hfd. apply list_elem_of_In, filter_In in Hfd as [Hfd _].
    rewrite dom_map_function_callsite, elem_of_list_to_set.
    apply list_elem_of_fmap. exists fd. by rewrite list_elem_of_In.
  - intros k l loc Hl Hloc.
    destruct (map_function_callsite_provenance _ _ _ _ _ Hl Hloc)
      as (c & _ & _ & <-).
    exists c. split; [done |]. intros Hin.
    apply (descriptor_not_character c).
    by apply (reachable_elements_are_characters _ _ _ Hreach).
Qed.

End Report.

Lemma analysis_func_report_witness :
  let main :=
    mkFunction "main" "main.c" [] ["fuzzer"] [("system", "main.c#main.c:7")] in
  let system := mkFunction "system" "stdlib.h" ["main"] ["fuzzer"] [] in
  let callsite :=
    mkCallsite (Some "main") (Some "main.c") 7 (Some "system") None None in
  let proj_profile :=
    mkProject [("main", main); ("system", system)] (fun _ _ => true) in
  exists text,
    analysis_func unit (fun _ => [callsite]) (fun name => name)
      (fun title _ toc => (title, toc ++ [(title, title, 0)]))
      (fun table_id _ => table_id)
      (String.concat "|") unit (String.concat ",")
      [] ["myTable0"] proj_profile [mkFuzzer "c-cpp" (Some tt) []] "" "" []
    = Ok (text,
          [ ("Function call coverage", "Function call coverage", 0);
            ("Function in each files in report",
             "Function in each files in report", 0) ],
          ["myTable0"; "myTable1"]).
Proof.
  eexists.
  refine (analysis_func_report (HTMLConclusion := unit)
            (fun _ : unit => _) _ _ _ _ _ _ _ _ _ _ _ _ _ _).
  intros f Hf callee d Hitem. simpl in Hf.
  rewrite dom_map_function_callsite, elem_of_list_to_set.
  apply elem_of_cons in Hf as [-> | Hf].
  - apply list_elem_of_singleton in Hitem. injection Hitem as -> ->.
    right. left.
  - apply list_elem_of_singleton in Hf. subst f. by apply elem_of_nil in Hitem.
Defined.

(** ** Descriptor resolution, continued *)

(** X17.  The two segments resolved from a call site are [None] in one
    situation only, a call site whose own source file is [None] and
    which has no parent node; in every other situation both are
    strings, so the text [None] enters a descriptor by resolution in
    that situation alone. *)
Theorem resolution_None_iff (callsite : CalltreeCallsite) :
  (_get_source_file callsite = None
   <-> src_function_source_file callsite = None
       /\ parent_calltree_callsite callsite = None)
  /\ (_get_parent_func_name callsite = None
      <-> src_function_source_file callsite = None
          /\ parent_calltree_callsite callsite = None).
Proof.
  unfold _get_source_file, _get_parent_func_name.
  destruct callsite as [name [[|a file]|] line dst dstfile [parent|]]; simpl.
  - destruct (truthy (dst_function_source_file parent)) eqn:E1,
             (truthy (dst_function_name parent)) eqn:E2;
      destruct (dst_function_source_file parent) as [[|? ?]|],
               (dst_function_name parent) as [[|? ?]|];
      simpl in *; repeat split; intros; try discriminate; destruct_and?; done.
  - repeat split; intros; destruct_and?; done.
  - repeat split; intros; destruct_and?; done.
  - repeat split; intros; destruct_and?; done.
  - destruct (truthy (dst_function_source_file parent)) eqn:E1,
             (truthy (dst_function_name parent)) eqn:E2;
      destruct (dst_function_source_file parent) as [[|? ?]|],
               (dst_function_name parent) as [[|? ?]|];
      simpl in *; repeat split; intros; try discriminate; destruct_and?; done.
  - repeat split; intros; destruct_and?; done.
Qed.
